(** * PiBench workload generators: a shallow embedding

    The development follows the three headers of the benchmark:
    - [operation_generator.hpp]: the 256-entry operation table,
    - [key_generator.hpp]: key layout, seeding and the id generators,
    - [benchmark.hpp]: options, the statistics record and the load phase.

    Integers of the C++ code are modelled by [Z] with their wrap-around
    written out; byte strings are lists of [Z] below 256; [float] values
    are modelled by the rationals they denote; thread-local statics are a
    finite map from thread identifiers to the thread's copy.

    Part I holds the definitions, Part II the proofs. *)

From Stdlib Require Import ZArith QArith Qabs Lia List.
From stdpp Require Import base tactics option list gmap finite.

Local Open Scope Z_scope.

(** * Part I: definitions *)

(** ** Fixed-width integers *)

Definition uint8_t (v : Z) : Z := v mod 2 ^ 8.
Definition uint64_t (v : Z) : Z := v mod 2 ^ 64.

(** ** Library components the headers rely on

    [std::default_random_engine] and [std::discrete_distribution] are not
    code of the benchmark; the embedding is written over any
    implementation of them.  [engine_wf] is the set of states an engine
    can be in. *)
Class StdRandom : Type := {
  engine : Type;
  engine_wf : engine -> Prop;
  (** a default-constructed engine *)
  default_engine : engine;
  (** the state left by [e.seed(s)], whatever [e] was before *)
  engine_seed : Z -> engine;
  (** [std::discrete_distribution<uint32_t> d(ws); d(e)] *)
  discrete_distribution : list Q -> engine -> Z * engine
}.

(** What the C++ standard promises of these components. *)
Record StdRandomLaws (L : StdRandom) : Prop := {
  default_engine_wf : engine_wf default_engine;
  engine_seed_wf : forall s, engine_wf (engine_seed s);
  discrete_wf : forall ws g,
    engine_wf g -> engine_wf (snd (discrete_distribution ws g));
  (** with [n > 0] weights the result is one of [0 .. n-1] *)
  discrete_range : forall ws g,
    ws <> [] ->
    0 <= fst (discrete_distribution ws g) < Z.of_nat (length ws);
  (** an index is produced with probability proportional to its weight:
      never, when the weight is zero *)
  discrete_support : forall ws g,
    engine_wf g ->
    Forall (fun w => (0 <= w)%Q) ws ->
    (0 < fold_right Qplus 0%Q ws)%Q ->
    (0 < nth (Z.to_nat (fst (discrete_distribution ws g))) ws 0%Q)%Q
}.

(** * operation_generator.hpp *)

Module operation_generator.

(** [enum class operation_t : uint8_t]. *)
Inductive operation_t : Set := READ | INSERT | UPDATE | REMOVE | SCAN.

Definition operation_code (op : operation_t) : Z :=
  match op with
  | READ => 0
  | INSERT => 1
  | UPDATE => 2
  | REMOVE => 3
  | SCAN => 4
  end.

(** [static_cast<operation_t>(v)] of a [uint32_t]: the stored value is the
    byte [v mod 256]; it names an enumerator only when it is below 5. *)
Definition static_cast_operation_t (v : Z) : Z := uint8_t v.

(** The object: [std::array<operation_t, 256> ops_], one byte per slot. *)
Record operation_generator_t : Type := mk_operation_generator_t {
  ops_ : list Z
}.

(** The five constructor arguments. *)
Record ratios_t : Type := mk_ratios {
  read_ratio : Q;
  insert_ratio : Q;
  update_ratio : Q;
  remove_ratio : Q;
  scan_ratio : Q
}.

Definition weights (r : ratios_t) : list Q :=
  [read_ratio r; insert_ratio r; update_ratio r; remove_ratio r; scan_ratio r].

Definition ratio_of (r : ratios_t) (op : operation_t) : Q :=
  match op with
  | READ => read_ratio r
  | INSERT => insert_ratio r
  | UPDATE => update_ratio r
  | REMOVE => remove_ratio r
  | SCAN => scan_ratio r
  end.

(** A valid tuple: no negative ratio, and the five sum to one. *)
Definition valid_ratios (r : ratios_t) : Prop :=
  Forall (fun w => (0 <= w)%Q) (weights r) /\
  (fold_right Qplus 0%Q (weights r) == 1)%Q.

(** Number of slots of a table that hold the byte [v]. *)
Definition count_slots (v : Z) (tbl : list Z) : nat :=
  length (filter (fun x => x = v) tbl).

(** The share of the 256 byte indices whose slot holds [op]: the frequency
    of [op] among the results of [next()] when the low byte of the draw is
    uniform. *)
Definition table_frequency (g : operation_generator_t) (op : operation_t) : Q :=
  Z.of_nat (count_slots (operation_code op) (ops_ g)) # 256.

(** [ops_[draw & 0xff]]: the array access of [next()] for a given draw;
    [None] stands for an access outside the array. *)
Definition next_at (g : operation_generator_t) (draw : Z) : option Z :=
  ops_ g !! Z.to_nat (Z.land draw 255).

(** The generator class of [uniform_random.hpp], which is not among the
    headers embedded here. *)
Class UniformRandomLib : Type := {
  UniformRandom : Type;
  set_current_seed : Z -> UniformRandom -> UniformRandom;
  next_uint32 : UniformRandom -> Z * UniformRandom
}.

(** The per-thread statics of the class. *)
Record statics_t `{UniformRandomLib} : Type := mk_statics {
  seed_ : Z;
  uni_dist : UniformRandom
}.

(** The constructor's loop: slot [i] receives the [i]-th sample, all
    samples being drawn from the one local engine [gen]. *)
Fixpoint fill_ops `{StdRandom} (n : nat) (ws : list Q) (gen : engine) : list Z :=
  match n with
  | O => []
  | S n' =>
      let '(v, gen') := discrete_distribution ws gen in
      static_cast_operation_t v :: fill_ops n' ws gen'
  end.

(** The engine as it stands when slot [n] is about to be filled. *)
Fixpoint engine_after `{StdRandom} (n : nat) (ws : list Q) (gen : engine) : engine :=
  match n with
  | O => gen
  | S n' => engine_after n' ws (snd (discrete_distribution ws gen))
  end.

(** [operation_generator_t(read, insert, update, remove, scan)]. *)
Definition operation_generator `{StdRandom} (r : ratios_t) : operation_generator_t :=
  {| ops_ := fill_ops 256 (weights r) default_engine |}.

(** [next()], threading the thread's statics. *)
Definition next `{UniformRandomLib} (g : operation_generator_t) (st : statics_t)
  : option Z * statics_t :=
  let '(draw, u) := next_uint32 (uni_dist st) in
  (next_at g draw, {| seed_ := seed_ st; uni_dist := u |}).

(** [set_seed(seed)] and [get_seed()]. *)
Definition set_seed `{UniformRandomLib} (seed : Z) (st : statics_t) : statics_t :=
  {| seed_ := seed; uni_dist := set_current_seed seed (uni_dist st) |}.

Definition get_seed `{UniformRandomLib} (st : statics_t) : Z := seed_ st.

(** *** A thread's view: generator objects and the statics

    The objects a thread has constructed are kept with the ratios they
    were constructed from; a call constructs an object, re-seeds, or asks
    an existing object for the next operation. *)
Record world `{UniformRandomLib} : Type := mk_world {
  objects : list (ratios_t * operation_generator_t);
  statics : statics_t
}.

Inductive call : Type :=
| call_construct (r : ratios_t)
| call_set_seed (seed : Z)
| call_next (obj : nat).

Definition step `{StdRandom} `{UniformRandomLib} (w : world) (c : call) : world :=
  match c with
  | call_construct r =>
      {| objects := objects w ++ [(r, operation_generator r)];
         statics := statics w |}
  | call_set_seed seed =>
      {| objects := objects w; statics := set_seed seed (statics w) |}
  | call_next obj =>
      match objects w !! obj with
      | Some (_, g) =>
          {| objects := objects w; statics := snd (next g (statics w)) |}
      | None => w
      end
  end.

Definition run `{StdRandom} `{UniformRandomLib} (w : world) (cs : list call) : world :=
  fold_left step cs w.

(** The argument of the most recent [set_seed] among the calls [cs], and
    [init] when there is none. *)
Definition last_seed (init : Z) (cs : list call) : Z :=
  fold_left (fun s c => match c with call_set_seed seed => seed | _ => s end)
    cs init.

End operation_generator.

(** * key_generator.hpp *)

Module key_generator.

(** [static constexpr uint32_t KEY_MAX = 128]. *)
Definition KEY_MAX : Z := 128.

(** The integer distributions the three generators hold in [dist_]:
    [std::uniform_int_distribution<uint64_t>] and the classes of
    [selfsimilar_int_distribution.hpp] and [zipfian_int_distribution.hpp],
    which are not among the headers embedded here.  Each takes its bounds
    (and skew) and an engine, and returns a value with the advanced
    engine. *)
Class IntDistributions `{StdRandom} : Type := {
  uniform_int_distribution : Z -> Z -> engine -> Z * engine;
  selfsimilar_int_distribution : Z -> Z -> Q -> engine -> Z * engine;
  zipfian_int_distribution : Z -> Z -> Q -> engine -> Z * engine
}.

(** The three final classes differ in the distribution they hold. *)
Inductive generator_kind : Type :=
| uniform_kind
| selfsimilar_kind (skew_ : Q)
| zipfian_kind (skew_ : Q).

(** The data members of [key_generator_t] ([prefix_] as its bytes). *)
Record key_generator_t : Type := mk_key_generator_t {
  kind : generator_kind;
  N_ : Z;
  size_ : Z;
  prefix_ : list Z;
  tid_prefix : bool
}.

(** The constructors of the three classes; [skew] defaults to [0.2] and
    [0.99]. *)
Definition uniform_key_generator_t (N size thread_num : Z) (tid : bool)
  (prefix : list Z) : key_generator_t :=
  {| kind := uniform_kind; N_ := N; size_ := size; prefix_ := prefix;
     tid_prefix := tid |}.

Definition selfsimilar_key_generator_t (N size thread_num : Z) (tid : bool)
  (prefix : list Z) (skew : Q) : key_generator_t :=
  {| kind := selfsimilar_kind skew; N_ := N; size_ := size; prefix_ := prefix;
     tid_prefix := tid |}.

Definition zipfian_key_generator_t (N size thread_num : Z) (tid : bool)
  (prefix : list Z) (skew : Q) : key_generator_t :=
  {| kind := zipfian_kind skew; N_ := N; size_ := size; prefix_ := prefix;
     tid_prefix := tid |}.

(** [size()], in [size_t] arithmetic. *)
Definition size (kg : key_generator_t) : Z :=
  if tid_prefix kg
  then uint64_t (uint64_t (Z.of_nat (length (prefix_ kg)) + size_ kg) + 1)
  else uint64_t (Z.of_nat (length (prefix_ kg)) + size_ kg).

(** [keyspace()]. *)
Definition keyspace (kg : key_generator_t) : Z := N_ kg.

(** The thread-local statics [seed_], [generator_] and [current_id_]
    (the scratch buffer [buf_] is represented by the key [next] returns). *)
Record statics_t `{StdRandom} : Type := mk_statics {
  seed_ : Z;
  generator_ : engine;
  current_id_ : Z
}.

(** [next_id()]: [dist_(generator_)], where [dist_] was built with the
    bounds [(1, N)]. *)
Definition next_id `{IntDistributions} (kg : key_generator_t) (g : engine)
  : Z * engine :=
  match kind kg with
  | uniform_kind => uniform_int_distribution 1 (N_ kg) g
  | selfsimilar_kind skew => selfsimilar_int_distribution 1 (N_ kg) skew g
  | zipfian_kind skew => zipfian_int_distribution 1 (N_ kg) skew g
  end.

(** [next_id(upper_bound)]: a temporary distribution over
    [(1, upper_bound)]. *)
Definition next_id_upto `{IntDistributions} (kg : key_generator_t)
  (upper_bound : Z) (g : engine) : Z * engine :=
  match kind kg with
  | uniform_kind => uniform_int_distribution 1 upper_bound g
  | selfsimilar_kind skew => selfsimilar_int_distribution 1 upper_bound skew g
  | zipfian_kind skew => zipfian_int_distribution 1 upper_bound skew g
  end.

(** What [key_generator.cpp], which is not among the embedded files,
    contributes: the initial values of the thread-local statics, the
    scrambling of an identifier and its inverse, and the out-of-range
    draw of negative-access mode. *)
Class KeyGeneratorImpl `{StdRandom} : Type := {
  statics_init : statics_t;
  scramble : Z -> Z;
  unscramble : Z -> Z;
  negative_id : key_generator_t -> engine -> Z * engine
}.

(** The 8-byte word [w] rotated by [k] bits to the left,
    [(w << k) | (w >> (64 - k))] on [uint64_t]: the two parts have no bit
    in common, so their sum is their bitwise or.  By no bit it is the
    identity. *)
Definition rotl64 (k w : Z) : Z :=
  uint64_t (Z.shiftl w k) + Z.shiftr w (64 - k).

(** The rotation by [k] bits to the right,
    [(w >> k) | (w << (64 - k))]. *)
Definition rotr64 (k w : Z) : Z :=
  Z.shiftr w k + uint64_t (Z.shiftl w (64 - k)).

(** Modelled from the spec: the scrambling applied by the missing
    [bits_shift]: "the 8-byte identifier is bit-shifted/rotated before
    serialization", a stable function of the identifier.  The number [k]
    of bits is not stated; decoding shifts back by as many. *)
Record RotationScramble `{KeyGeneratorImpl} (k : Z) : Prop := {
  rotation_bits : 0 <= k < 64;
  scramble_rotates : forall id, 0 <= id < 2 ^ 64 -> scramble id = rotl64 k id;
  unscramble_rotates : forall w, 0 <= w < 2 ^ 64 -> unscramble w = rotr64 k w
}.

(** Thread-local storage: each thread that has touched the statics has
    its own copy; a thread without one starts from [statics_init]. *)
Definition thread_statics `{KeyGeneratorImpl}
  (tls : gmap nat statics_t) (t : nat) : statics_t :=
  default statics_init (tls !! t).

(** [set_seed(seed)] as the calling thread sees it:
    [seed_ = seed; generator_.seed(seed_);]. *)
Definition set_seed_local `{StdRandom} (seed : Z) (st : statics_t) : statics_t :=
  {| seed_ := seed; generator_ := engine_seed seed;
     current_id_ := current_id_ st |}.

(** [set_seed(seed)] called by thread [t]. *)
Definition set_seed `{KeyGeneratorImpl} (t : nat) (seed : Z)
  (tls : gmap nat statics_t) : gmap nat statics_t :=
  <[t := set_seed_local seed (thread_statics tls t)]> tls.

(** [get_seed()] called by thread [t]. *)
Definition get_seed `{KeyGeneratorImpl} (t : nat) (tls : gmap nat statics_t) : Z :=
  seed_ (thread_statics tls t).

(** A history of [set_seed] calls, each with the thread that makes it,
    applied in order. *)
Definition set_seed_calls `{KeyGeneratorImpl} (tls : gmap nat statics_t)
  (cs : list (nat * Z)) : gmap nat statics_t :=
  fold_left (fun m c => set_seed (fst c) (snd c) m) cs tls.

(** The seed of the last call that thread [t] makes in a history. *)
Fixpoint last_seed_by (t : nat) (cs : list (nat * Z)) : option Z :=
  match cs with
  | [] => None
  | c :: rest =>
      match last_seed_by t rest with
      | Some seed => Some seed
      | None => if decide (fst c = t) then Some (snd c) else None
      end
  end.

(** The [n] low-order bytes of [w], most significant first. *)
Fixpoint be_bytes (n : nat) (w : Z) : list Z :=
  match n with
  | O => []
  | S n' => Z.land (Z.shiftr w (8 * Z.of_nat n')) 255 :: be_bytes n' w
  end.

(** The integer a big-endian byte string denotes. *)
Definition from_be (bytes : list Z) : Z :=
  fold_left (fun acc b => acc * 256 + b) bytes 0.

(** Modelled from the spec: the missing [bits_shift], which formats an
    identifier into the key buffer: the scrambled 8-byte word is written
    big-endian; for a key size below 8 bytes the higher bits are
    discarded, for a larger one zero bytes are prepended. *)
Definition bits_shift `{KeyGeneratorImpl} (kg : key_generator_t) (id : Z) : list Z :=
  let w := scramble id in
  if size_ kg <? 8
  then be_bytes (Z.to_nat (size_ kg)) w
  else repeat 0 (Z.to_nat (size_ kg - 8)) ++ be_bytes 8 w.

(** Modelled from the spec: the decoding of the encoded bytes, the
    inverse of the shift. *)
Definition decode `{KeyGeneratorImpl} (bytes : list Z) : Z :=
  unscramble (from_be bytes).

(** Modelled from the spec: the identifier chosen by the missing [next]:
    with [in_sequence] the thread's cursor, which then advances by one;
    otherwise a draw outside the keyspace under [negative_access], and a
    draw of the configured distribution else. *)
Definition choose_id `{IntDistributions} `{!KeyGeneratorImpl}
  (kg : key_generator_t) (negative_access in_sequence : bool) (st : statics_t)
  : Z * statics_t :=
  if in_sequence then
    (current_id_ st,
     {| seed_ := seed_ st; generator_ := generator_ st;
        current_id_ := uint64_t (current_id_ st + 1) |})
  else
    let '(id, g) :=
      if negative_access then negative_id kg (generator_ st)
      else next_id kg (generator_ st) in
    (id, {| seed_ := seed_ st; generator_ := g; current_id_ := current_id_ st |}).

(** Modelled from the spec: the missing [next(negative_access,
    in_sequence)]: the key is the prefix followed by the encoded
    identifier. *)
Definition next `{IntDistributions} `{!KeyGeneratorImpl}
  (kg : key_generator_t) (negative_access in_sequence : bool) (st : statics_t)
  : list Z * statics_t :=
  let '(id, st') := choose_id kg negative_access in_sequence st in
  (prefix_ kg ++ bits_shift kg id, st').

(** Modelled from the spec: the missing [next(tid, negative_access,
    in_sequence)] of time-based mode, which additionally embeds the
    thread id as a one-byte field between prefix and identifier. *)
Definition next_tid `{IntDistributions} `{!KeyGeneratorImpl}
  (kg : key_generator_t) (tid : Z) (negative_access in_sequence : bool)
  (st : statics_t) : list Z * statics_t :=
  let '(id, st') := choose_id kg negative_access in_sequence st in
  (prefix_ kg ++ uint8_t tid :: bits_shift kg id, st').

(** The key layout of the class comment for the identifier [id]:
    prefix, then the thread id if the generator is time-based, then the
    encoded identifier. *)
Definition key_of_id `{KeyGeneratorImpl} (kg : key_generator_t) (tid id : Z)
  : list Z :=
  prefix_ kg
  ++ (if tid_prefix kg then [uint8_t tid] else []) ++ bits_shift kg id.

End key_generator.

(** * benchmark.hpp *)

Module benchmark.

(** [enum class mode_t : uint8_t]. *)
Inductive mode_t : Set := Operation | Time.

(** [enum class distribution_t : uint8_t]. *)
Inductive distribution_t : Set := UNIFORM | SELFSIMILAR | ZIPFIAN.

(** [struct options_t] (strings as their bytes). *)
Record options_t : Type := mk_options_t {
  library_file : list Z;
  num_records : Z;
  num_ops : Z;
  num_threads : Z;
  sampling_ms : Z;
  key_prefix : list Z;
  key_size : Z;
  value_size : Z;
  read_ratio : Q;
  insert_ratio : Q;
  update_ratio : Q;
  remove_ratio : Q;
  scan_ratio : Q;
  scan_size : Z;
  key_distribution : distribution_t;
  key_skew : Q;
  rnd_seed : Z;
  enable_pcm : bool;
  skip_load : bool;
  latency_sampling : Q;
  time : Q;
  bm_mode : mode_t;
  negative_access : bool;
  negative_access_rate : Q
}.

(** The default member initialisers. *)
Definition default_options : options_t :=
  {| library_file := []; num_records := 1000000; num_ops := 1000000;
     num_threads := 1; sampling_ms := 1000; key_prefix := [];
     key_size := 8; value_size := 8;
     read_ratio := 1; insert_ratio := 0; update_ratio := 0;
     remove_ratio := 0; scan_ratio := 0; scan_size := 100;
     key_distribution := UNIFORM; key_skew := 2 # 10; rnd_seed := 1729;
     enable_pcm := true; skip_load := false; latency_sampling := 0;
     time := 0; bm_mode := Operation; negative_access := false;
     negative_access_rate := 2 # 10 |}.

(** [static constexpr size_t MAX_SCAN = 1000]. *)
Definition MAX_SCAN : Z := 1000.

(** *** The layout of [struct alignas(64) stats_t]

    A member is described by its size and alignment requirement; members
    are laid out in declaration order, each at the next offset that is a
    multiple of its alignment, and the size of the struct is the end of
    the last member rounded up to the alignment of the struct. *)
Record member_t : Type := mk_member {
  member_size : Z;
  member_align : Z
}.

Definition round_up (x a : Z) : Z := (x + a - 1) / a * a.

Fixpoint layout_end (offset : Z) (members : list member_t) : Z :=
  match members with
  | [] => offset
  | m :: rest =>
      layout_end (round_up offset (member_align m) + member_size m) rest
  end.

(** The offsets the members are placed at. *)
Fixpoint member_offsets (offset : Z) (members : list member_t) : list Z :=
  match members with
  | [] => []
  | m :: rest =>
      round_up offset (member_align m)
      :: member_offsets (round_up offset (member_align m) + member_size m) rest
  end.

(** Alignments are powers of two, so the strictest is the largest. *)
Definition struct_align (alignas : Z) (members : list member_t) : Z :=
  fold_right (fun m a => Z.max (member_align m) a) alignas members.

Definition struct_size (alignas : Z) (members : list member_t) : Z :=
  round_up (layout_end 0 members) (struct_align alignas members).

(** Size and alignment of
    [std::vector<std::chrono::high_resolution_clock::time_point>], which
    the platform fixes. *)
Class VectorLayout : Type := {
  vector_size : Z;
  vector_align : Z
}.

(** [operation_count], [operation_count_F], [times], [____padding[7]]. *)
Definition stats_t_members `{VectorLayout} : list member_t :=
  [ {| member_size := 8; member_align := 8 |};
    {| member_size := 8; member_align := 8 |};
    {| member_size := vector_size; member_align := vector_align |};
    {| member_size := 7 * 8; member_align := 8 |} ].

Definition cache_line_size : Z := 64.

Definition alignof_stats_t `{VectorLayout} : Z :=
  struct_align cache_line_size stats_t_members.

Definition sizeof_stats_t `{VectorLayout} : Z :=
  struct_size cache_line_size stats_t_members.

(** Address of byte [offset] of element [i] of an array of records
    starting at [base], and the cache line an address falls into. *)
Definition element_address `{VectorLayout} (base : Z) (i : Z) (offset : Z) : Z :=
  base + i * sizeof_stats_t + offset.

Definition cache_line (address : Z) : Z := address / cache_line_size.

(** *** The load phase *)

(** The structure under test ([tree_api.hpp]) and the value generator
    ([value_generator.hpp]) are consumed through their calls only. *)
Class TreeApi : Type := {
  tree : Type;
  (** [insert(key, key_sz, value, value_sz)] *)
  tree_insert : tree -> list Z -> Z -> list Z -> Z -> bool * tree
}.

Class ValueGenerator : Type := {
  value_generator_t : Type;
  value_next : value_generator_t -> list Z * value_generator_t
}.

(** Modelled from the spec: the key generator the missing constructor of
    [benchmark_t] builds: one of the three variants, selected by the
    configured distribution; the thread-id field belongs to time-based
    mode. *)
Definition make_key_generator (opt : options_t) : key_generator.key_generator_t :=
  let tid := match bm_mode opt with Time => true | Operation => false end in
  match key_distribution opt with
  | UNIFORM =>
      key_generator.uniform_key_generator_t (num_records opt) (key_size opt)
        (num_threads opt) tid (key_prefix opt)
  | SELFSIMILAR =>
      key_generator.selfsimilar_key_generator_t (num_records opt) (key_size opt)
        (num_threads opt) tid (key_prefix opt) (key_skew opt)
  | ZIPFIAN =>
      key_generator.zipfian_key_generator_t (num_records opt) (key_size opt)
        (num_threads opt) tid (key_prefix opt) (key_skew opt)
  end.

(** One call of [insert] as the structure under test sees it. *)
Record insert_call : Type := mk_insert_call {
  call_key : list Z;
  call_key_size : Z;
  call_value : list Z;
  call_value_size : Z
}.

(** What the loading thread owns. *)
Record benchmark_t `{StdRandom} `{TreeApi} `{ValueGenerator} : Type := mk_benchmark_t {
  tree_ : tree;
  opt_ : options_t;
  key_generator_ : key_generator.key_generator_t;
  value_generator_ : value_generator_t;
  key_statics : key_generator.statics_t
}.

Inductive load_outcome : Set := load_complete | load_fatal.

(** Modelled from the spec: the next key of the load, generated in
    sequence by the loading thread, whose id is [tid]: with the
    time-based [next] if the generator embeds the thread id, and with
    the other [next] if it does not. *)
Definition load_next `{key_generator.IntDistributions}
  `{!key_generator.KeyGeneratorImpl} (kg : key_generator.key_generator_t)
  (tid : Z) (st : key_generator.statics_t) : list Z * key_generator.statics_t :=
  if key_generator.tid_prefix kg
  then key_generator.next_tid kg tid false true st
  else key_generator.next kg false true st.

(** Modelled from the spec: the loop of the missing [load()]: each round
    generates the next key in sequence and a fresh value and inserts
    them, the key with the size the generator announces; a rejected
    insert is fatal and ends the phase. The insert calls issued are
    returned in order. *)
Fixpoint load_loop `{key_generator.IntDistributions} `{!key_generator.KeyGeneratorImpl}
  `{TreeApi} `{ValueGenerator} (tid : Z) (n : nat) (b : benchmark_t)
  : list insert_call * load_outcome * benchmark_t :=
  match n with
  | O => ([], load_complete, b)
  | S n' =>
      let '(key, ks) :=
        load_next (key_generator_ b) tid (key_statics b) in
      let '(value, vg) := value_next (value_generator_ b) in
      let c := {| call_key := key;
                  call_key_size := key_generator.size (key_generator_ b);
                  call_value := value;
                  call_value_size := value_size (opt_ b) |} in
      let '(ok, t) :=
        tree_insert (tree_ b) (call_key c) (call_key_size c)
          (call_value c) (call_value_size c) in
      let b' := {| tree_ := t; opt_ := opt_ b;
                   key_generator_ := key_generator_ b;
                   value_generator_ := vg; key_statics := ks |} in
      if ok then
        let '(calls, outcome, b'') := load_loop tid n' b' in
        (c :: calls, outcome, b'')
      else ([c], load_fatal, b')
  end.

(** Modelled from the spec: the missing [load()], which issues
    [num_records] inserts from a single thread, of id [tid]. *)
Definition load `{key_generator.IntDistributions} `{!key_generator.KeyGeneratorImpl}
  `{TreeApi} `{ValueGenerator} (tid : Z) (b : benchmark_t)
  : list insert_call * load_outcome * benchmark_t :=
  load_loop tid (Z.to_nat (num_records (opt_ b))) b.

(** Modelled from the spec: the state in which the missing constructor
    leaves a benchmark: the key generator selected by the options, and
    the loading thread's cursor at the first identifier of the keyspace
    [1 .. N]. *)
Definition benchmark `{key_generator.IntDistributions} `{!key_generator.KeyGeneratorImpl}
  `{TreeApi} `{ValueGenerator} (t : tree) (opt : options_t)
  (vg : value_generator_t) (g : engine) : benchmark_t :=
  {| tree_ := t; opt_ := opt; key_generator_ := make_key_generator opt;
     value_generator_ := vg;
     key_statics := {| key_generator.seed_ := rnd_seed opt;
                       key_generator.generator_ := g;
                       key_generator.current_id_ := 1 |} |}.

(** Two benchmarks that differ at most in the distribution of their
    generator, in the state of the engine and in options the load does
    not read. *)
Definition same_load_inputs `{StdRandom} `{TreeApi} `{ValueGenerator}
  (b1 b2 : benchmark_t) : Prop :=
  tree_ b1 = tree_ b2 /\
  value_generator_ b1 = value_generator_ b2 /\
  value_size (opt_ b1) = value_size (opt_ b2) /\
  key_generator.prefix_ (key_generator_ b1)
  = key_generator.prefix_ (key_generator_ b2) /\
  key_generator.size_ (key_generator_ b1)
  = key_generator.size_ (key_generator_ b2) /\
  key_generator.tid_prefix (key_generator_ b1)
  = key_generator.tid_prefix (key_generator_ b2) /\
  key_generator.current_id_ (key_statics b1)
  = key_generator.current_id_ (key_statics b2).

End benchmark.

(** * Instances of the library components

    The GNU C++ library's versions of the standard components:
    [default_random_engine] is [minstd_rand0], the linear congruential
    engine with multiplier 16807 and modulus [2^31 - 1].

    The engine is exact.  [discrete] is the library's algorithm over the
    rationals, where the library computes in [double]: the two can
    disagree on a slot where the rounding of a weight or of a cumulative
    probability decides a comparison with the draw, and on weights that
    sum to zero.  The tables computed with this instance are that of
    [quarter_ratios], whose weights and cumulative sums are exact in
    [double] and whose draws stay clear of them ([quarter_draws_clear]),
    and that of [read_only_ratios], where every draw is below the one
    cumulative sum, 1.  The general theorems are over every
    implementation that meets [StdRandomLaws]. *)

Module gnu.

Definition multiplier : Z := 16807.
Definition modulus : Z := 2147483647.

(** [linear_congruential_engine::seed(s)] for increment 0. *)
Definition lce_seed (s : Z) : Z :=
  if s mod modulus =? 0 then 1 else s mod modulus.

(** [operator()]: the new state is also the value returned. *)
Definition lce_next (x : Z) : Z * Z :=
  let x' := (multiplier * x) mod modulus in (x', x').

(** [max() - min() + 1]. *)
Definition lce_range : Z := 2147483646.

(** [generate_canonical<double, 53>]: two draws, the second one weighing
    [lce_range] times the first, scaled into [[0, 1)]. *)
Definition generate_canonical (x : Z) : Q * Z :=
  let '(g1, x1) := lce_next x in
  let '(g2, x2) := lce_next x1 in
  (((g1 - 1) + (g2 - 1) * lce_range) # Z.to_pos (lce_range * lce_range), x2).

(** [param_type::_M_initialize]: the weights are divided by their sum and
    accumulated; the last cumulative probability is set to one. *)
Definition sum_weights (ws : list Q) : Q := fold_right Qplus 0%Q ws.

Definition normalize (ws : list Q) : list Q :=
  map (fun w => (w / sum_weights ws)%Q) ws.

Fixpoint partial_sum (acc : Q) (ps : list Q) : list Q :=
  match ps with
  | [] => []
  | p :: rest => (acc + p)%Q :: partial_sum (acc + p)%Q rest
  end.

Definition cumulative (ws : list Q) : list Q :=
  removelast (partial_sum 0%Q (normalize ws)) ++ [1%Q].

(** [std::lower_bound] on a non-decreasing range: the position of the
    first element that is not less than [p]. *)
Fixpoint lower_bound (cp : list Q) (p : Q) : nat :=
  match cp with
  | [] => O
  | c :: rest => if Qle_bool p c then O else S (lower_bound rest p)
  end.

(** [discrete_distribution::operator()]; with fewer than two weights the
    result is 0 and the engine is not used. *)
Definition discrete (ws : list Q) (x : Z) : Z * Z :=
  if (length ws <? 2)%nat then (0, x)
  else
    let '(p, x') := generate_canonical x in
    (Z.of_nat (lower_bound (cumulative ws) p), x').

(** The canonical values the next [n] samples are decided by. *)
Fixpoint canonical_draws (n : nat) (x : Z) : list Q :=
  match n with
  | O => []
  | S n' =>
      let '(p, x') := generate_canonical x in p :: canonical_draws n' x'
  end.

(** Whether [p] is farther than [eps] from each of the values [cs]. *)
Definition clear_of (eps : Q) (cs : list Q) (p : Q) : bool :=
  forallb (fun c => negb (Qle_bool (Qabs (p - c)) eps)) cs.

#[export] Instance random : StdRandom := {|
  engine := Z;
  engine_wf := fun x => 1 <= x < modulus;
  default_engine := lce_seed 1;
  engine_seed := lce_seed;
  discrete_distribution := discrete
|}.

End gnu.

(** Small models of the components that are consumed through an
    interface only; they show that what is assumed of an interface can be
    met. *)

Module models.

#[local] Existing Instance gnu.random.

(** A generator with a 64-bit linear congruential state folded to 32
    bits. *)
#[export] Instance uniform_random : operation_generator.UniformRandomLib := {|
  operation_generator.UniformRandom := Z;
  operation_generator.set_current_seed := fun seed _ => uint64_t seed;
  operation_generator.next_uint32 := fun s =>
    let s' := uint64_t (s * 3494654325 + 1406832674) in
    (Z.lxor (Z.shiftr s' 32) (Z.land s' 4294967295), s')
|}.

(** Stand-ins for the distributions, to run the examples with: each
    reduces one draw of the engine into the range.  They are not the
    algorithms of the library or of the two missing headers. *)
Definition draw_in_range (a b : Z) (x : Z) : Z * Z :=
  let '(g, x') := gnu.lce_next x in (a + g mod (b - a + 1), x').

#[export] Instance distributions : key_generator.IntDistributions := {|
  key_generator.uniform_int_distribution := draw_in_range;
  key_generator.selfsimilar_int_distribution := fun a b _ => draw_in_range a b;
  key_generator.zipfian_int_distribution := fun a b _ => draw_in_range a b
|}.

(** Plain big-endian keys: the scrambling is the rotation by no bit,
    the identity; a negative access draws above the keyspace. *)
#[export] Instance plain_keys : key_generator.KeyGeneratorImpl := {|
  key_generator.statics_init :=
    {| key_generator.seed_ := 0; key_generator.generator_ := default_engine;
       key_generator.current_id_ := 1 |};
  key_generator.scramble := fun id => id;
  key_generator.unscramble := fun w => w;
  key_generator.negative_id := fun kg x =>
    let '(g, x') := gnu.lce_next x in (key_generator.N_ kg + g, x')
|}.

(** Keys whose identifier is rotated by 13 bits to the left. *)
#[export] Instance rotated_keys : key_generator.KeyGeneratorImpl := {|
  key_generator.statics_init :=
    {| key_generator.seed_ := 0; key_generator.generator_ := default_engine;
       key_generator.current_id_ := 1 |};
  key_generator.scramble := key_generator.rotl64 13;
  key_generator.unscramble := key_generator.rotr64 13;
  key_generator.negative_id := fun kg x =>
    let '(g, x') := gnu.lce_next x in (key_generator.N_ kg + g, x')
|}.

(** A structure under test that keeps the set of its keys and rejects a
    key it already holds. *)
#[export] Instance key_set : benchmark.TreeApi := {|
  benchmark.tree := list (list Z);
  benchmark.tree_insert := fun t key _ _ _ =>
    if bool_decide (key ∈ t) then (false, t) else (true, key :: t)
|}.

(** The structure before the load. *)
Definition no_keys : @benchmark.tree key_set := @nil (list Z).

(** Values of eight zero bytes. *)
#[export] Instance zero_values : benchmark.ValueGenerator := {|
  benchmark.value_generator_t := unit;
  benchmark.value_next := fun u => (repeat 0 8, u)
|}.

Definition zero_generator : @benchmark.value_generator_t zero_values := tt.

(** The common 64-bit layout of a vector: three pointers. *)
#[export] Instance vector_lp64 : benchmark.VectorLayout := {|
  benchmark.vector_size := 24;
  benchmark.vector_align := 8
|}.

(** A quarter of the operations each for the first four kinds. *)
Definition quarter_ratios : operation_generator.ratios_t :=
  operation_generator.mk_ratios (1 # 4) (1 # 4) (1 # 4) (1 # 4) 0.

(** The ratios of the default options: reads only. *)
Definition read_only_ratios : operation_generator.ratios_t :=
  operation_generator.mk_ratios 1 0 0 0 0.

(** A generator whose key size is the largest a [size_t] holds. *)
Definition huge_keys : key_generator.key_generator_t :=
  key_generator.uniform_key_generator_t 1000 (2 ^ 64 - 1) 1 true [].

(** The default options with [n] records and keys of [ks] bytes. *)
Definition options_with (n ks : Z) : benchmark.options_t :=
  let o := benchmark.default_options in
  {| benchmark.library_file := benchmark.library_file o;
     benchmark.num_records := n;
     benchmark.num_ops := benchmark.num_ops o;
     benchmark.num_threads := benchmark.num_threads o;
     benchmark.sampling_ms := benchmark.sampling_ms o;
     benchmark.key_prefix := benchmark.key_prefix o;
     benchmark.key_size := ks;
     benchmark.value_size := benchmark.value_size o;
     benchmark.read_ratio := benchmark.read_ratio o;
     benchmark.insert_ratio := benchmark.insert_ratio o;
     benchmark.update_ratio := benchmark.update_ratio o;
     benchmark.remove_ratio := benchmark.remove_ratio o;
     benchmark.scan_ratio := benchmark.scan_ratio o;
     benchmark.scan_size := benchmark.scan_size o;
     benchmark.key_distribution := benchmark.key_distribution o;
     benchmark.key_skew := benchmark.key_skew o;
     benchmark.rnd_seed := benchmark.rnd_seed o;
     benchmark.enable_pcm := benchmark.enable_pcm o;
     benchmark.skip_load := benchmark.skip_load o;
     benchmark.latency_sampling := benchmark.latency_sampling o;
     benchmark.time := benchmark.time o;
     benchmark.bm_mode := benchmark.bm_mode o;
     benchmark.negative_access := benchmark.negative_access o;
     benchmark.negative_access_rate := benchmark.negative_access_rate o |}.

(** The same in time-based mode. *)
Definition timed_options_with (n ks : Z) : benchmark.options_t :=
  let o := options_with n ks in
  {| benchmark.library_file := benchmark.library_file o;
     benchmark.num_records := benchmark.num_records o;
     benchmark.num_ops := benchmark.num_ops o;
     benchmark.num_threads := benchmark.num_threads o;
     benchmark.sampling_ms := benchmark.sampling_ms o;
     benchmark.key_prefix := benchmark.key_prefix o;
     benchmark.key_size := benchmark.key_size o;
     benchmark.value_size := benchmark.value_size o;
     benchmark.read_ratio := benchmark.read_ratio o;
     benchmark.insert_ratio := benchmark.insert_ratio o;
     benchmark.update_ratio := benchmark.update_ratio o;
     benchmark.remove_ratio := benchmark.remove_ratio o;
     benchmark.scan_ratio := benchmark.scan_ratio o;
     benchmark.scan_size := benchmark.scan_size o;
     benchmark.key_distribution := benchmark.key_distribution o;
     benchmark.key_skew := benchmark.key_skew o;
     benchmark.rnd_seed := benchmark.rnd_seed o;
     benchmark.enable_pcm := benchmark.enable_pcm o;
     benchmark.skip_load := benchmark.skip_load o;
     benchmark.latency_sampling := benchmark.latency_sampling o;
     benchmark.time := benchmark.time o;
     benchmark.bm_mode := benchmark.Time;
     benchmark.negative_access := benchmark.negative_access o;
     benchmark.negative_access_rate := benchmark.negative_access_rate o |}.

(** A uniform generator over 1000 keys of 8 bytes with the prefix
    ["user"] and the thread-id field. *)
Definition user_keys : key_generator.key_generator_t :=
  key_generator.uniform_key_generator_t 1000 8 2 true [117; 115; 101; 114].

(** A uniform generator over 1000 keys of 2 bytes. *)
Definition short_keys : key_generator.key_generator_t :=
  key_generator.uniform_key_generator_t 1000 2 1 false [].

(** A uniform generator over 257 keys of a single byte. *)
Definition byte_keys : key_generator.key_generator_t :=
  key_generator.uniform_key_generator_t 257 1 1 false [].

(** The statics of a thread whose engine was default-constructed and has
    been advanced by one draw. *)
Definition advanced_statics : key_generator.statics_t :=
  {| key_generator.seed_ := 0;
     key_generator.generator_ := fst (gnu.lce_next default_engine);
     key_generator.current_id_ := 1 |}.

(** Statics of a thread whose generator was seeded with 0. *)
Definition operation_statics : operation_generator.statics_t :=
  {| operation_generator.seed_ := 0; operation_generator.uni_dist := 0 |}.

End models.

(** * Part II: proofs *)

(** ** Lists *)

Lemma filter_ext_in {A} (P1 P2 : A -> Prop)
  `{!forall x, Decision (P1 x)} `{!forall x, Decision (P2 x)} (l : list A) :
  (forall x, x ∈ l -> (P1 x <-> P2 x)) -> filter P1 l = filter P2 l.
Proof.
  induction l as [|x l IH]; intros Hl; [reflexivity|].
  rewrite !filter_cons.
  rewrite IH by (intros y Hy; apply Hl; now right).
  destruct (decide (P1 x)) as [H1|H1]; destruct (decide (P2 x)) as [H2|H2];
    try reflexivity; exfalso; apply (Hl x (list_elem_of_here x l)) in H1 || apply H1;
    tauto || (apply (Hl x (list_elem_of_here x l)); exact H2).
Qed.

Lemma filter_none {A} (P : A -> Prop) `{!forall x, Decision (P x)} (l : list A) :
  (forall x, x ∈ l -> ~ P x) -> filter P l = [].
Proof.
  induction l as [|x l IH]; intros Hl; [reflexivity|].
  rewrite filter_cons_False by (apply Hl; left).
  apply IH. intros y Hy. apply Hl. now right.
Qed.

Lemma removelast_length {A} (l : list A) :
  length (removelast l) = pred (length l).
Proof.
  induction l as [|x [|y l] IH]; try reflexivity.
  change (removelast (x :: y :: l)) with (x :: removelast (y :: l)).
  simpl length in *. now rewrite IH.
Qed.

(** ** The operation table *)

Section operation_table.

Import operation_generator.

Context `{L : StdRandom} (HL : StdRandomLaws L).
Context `{U : UniformRandomLib}.

Lemma land_255_mod (d : Z) : Z.land d 255 = d mod 256.
Proof. change 255 with (Z.ones 8). now rewrite Z.land_ones by lia. Qed.

Lemma land_255_range (d : Z) : 0 <= Z.land d 255 <= 255.
Proof.
  rewrite land_255_mod.
  pose proof (Z.mod_pos_bound d 256); lia.
Qed.

Lemma fill_ops_length n ws gen : length (fill_ops n ws gen) = n.
Proof.
  revert gen; induction n as [|n IH]; intros gen; simpl; [reflexivity|].
  destruct (discrete_distribution ws gen) as [v gen']; simpl.
  now rewrite IH.
Qed.

Lemma ops_unfold r :
  ops_ (operation_generator r) = fill_ops 256 (weights r) default_engine.
Proof. reflexivity. Qed.

Lemma ops_length r : length (ops_ (operation_generator r)) = 256%nat.
Proof. rewrite ops_unfold. apply fill_ops_length. Qed.

Lemma fill_ops_lookup n ws gen i :
  (i < n)%nat ->
  fill_ops n ws gen !! i =
  Some (static_cast_operation_t
          (fst (discrete_distribution ws (engine_after i ws gen)))).
Proof.
  revert gen i; induction n as [|n IH]; intros gen i Hi; [lia|].
  simpl. destruct (discrete_distribution ws gen) as [v gen'] eqn:E.
  destruct i as [|i]; simpl.
  - now rewrite E.
  - rewrite E; simpl. apply IH; lia.
Qed.

Lemma engine_after_wf n ws gen :
  engine_wf gen -> engine_wf (engine_after n ws gen).
Proof.
  revert gen; induction n as [|n IH]; intros gen Hg; simpl; [exact Hg|].
  apply IH, (discrete_wf _ HL), Hg.
Qed.

Lemma weights_length r : length (weights r) = 5%nat.
Proof. reflexivity. Qed.

Lemma weights_nonempty r : weights r <> [].
Proof. discriminate. Qed.

(** Every sample over five weights is the code of an operation. *)
Lemma sample_is_code r gen :
  exists op,
    static_cast_operation_t (fst (discrete_distribution (weights r) gen))
    = operation_code op /\
    fst (discrete_distribution (weights r) gen) = operation_code op.
Proof.
  pose proof (discrete_range _ HL (weights r) gen (weights_nonempty r)) as Hr.
  rewrite weights_length in Hr.
  set (v := fst (discrete_distribution (weights r) gen)) in *.
  assert (Hv : v = 0 \/ v = 1 \/ v = 2 \/ v = 3 \/ v = 4) by lia.
  destruct Hv as [-> | [-> | [-> | [-> | ->]]]];
    [exists READ | exists INSERT | exists UPDATE | exists REMOVE | exists SCAN];
    split; reflexivity.
Qed.

Lemma slot_is_code r i :
  (i < 256)%nat ->
  exists op, ops_ (operation_generator r) !! i = Some (operation_code op).
Proof.
  intros Hi. rewrite ops_unfold, fill_ops_lookup by exact Hi.
  destruct (sample_is_code r (engine_after i (weights r) default_engine))
    as (op & Hop & _).
  exists op. now rewrite Hop.
Qed.

Lemma nth_weights r op :
  nth (Z.to_nat (operation_code op)) (weights r) 0%Q = ratio_of r op.
Proof. destruct op; reflexivity. Qed.

Lemma operation_code_inj op1 op2 :
  operation_code op1 = operation_code op2 -> op1 = op2.
Proof. destruct op1, op2; simpl; intros E; try reflexivity; discriminate. Qed.

(** A slot never holds an operation whose ratio is zero. *)
Lemma slot_has_weight r i op :
  valid_ratios r ->
  ops_ (operation_generator r) !! i = Some (operation_code op) ->
  (0 < ratio_of r op)%Q.
Proof.
  intros [Hnn Hsum] Hslot.
  assert (Hi : (i < 256)%nat).
  { rewrite <- (ops_length r). eapply lookup_lt_Some, Hslot. }
  rewrite ops_unfold, fill_ops_lookup in Hslot by exact Hi.
  set (gen := engine_after i (weights r) default_engine) in *.
  destruct (sample_is_code r gen) as (op' & Hcast & Hv).
  rewrite Hcast in Hslot. injection Hslot as Hop.
  apply operation_code_inj in Hop; subst op'.
  assert (Hwf : engine_wf gen).
  { apply engine_after_wf, (default_engine_wf _ HL). }
  assert (Hpos : (0 < fold_right Qplus 0 (weights r))%Q).
  { rewrite Hsum. reflexivity. }
  pose proof (discrete_support _ HL (weights r) gen Hwf Hnn Hpos) as Hs.
  rewrite Hv, nth_weights in Hs. exact Hs.
Qed.

(** Counting the indices of a list that hold [v] counts its occurrences. *)
Lemma count_indices (v : Z) (l : list Z) (k : nat) :
  length (filter (fun i => l !! (i - k)%nat = Some v) (seq k (length l)))
  = count_slots v l.
Proof.
  unfold count_slots. revert k; induction l as [|x l IH]; intros k; [reflexivity|].
  simpl length at 1. simpl seq. rewrite !filter_cons.
  replace (k - k)%nat with O by lia. simpl.
  assert (Htail :
    filter (fun i => (x :: l) !! (i - k)%nat = Some v) (seq (S k) (length l))
    = filter (fun i => l !! (i - S k)%nat = Some v) (seq (S k) (length l))).
  { apply filter_ext_in. intros i Hin. apply elem_of_seq in Hin.
    replace (i - k)%nat with (S (i - S k)) by lia. reflexivity. }
  rewrite Htail.
  destruct (decide (Some x = Some v)) as [E|N]; destruct (decide (x = v)) as [E'|N'];
    simpl; try congruence; now rewrite IH.
Qed.

Lemma next_at_byte g (b : nat) :
  (b < 256)%nat -> next_at g (Z.of_nat b) = ops_ g !! b.
Proof.
  intros Hb. unfold next_at.
  rewrite land_255_mod, Z.mod_small by lia. now rewrite Nat2Z.id.
Qed.

(** Among the 256 byte indices, as many select [v] as slots hold it. *)
Lemma bytes_selecting_length g v :
  length (ops_ g) = 256%nat ->
  length (filter (fun b => next_at g (Z.of_nat b) = Some v)
            (seq 0 (length (ops_ g))))
  = count_slots v (ops_ g).
Proof.
  intros Hlen. rewrite <- (count_indices v (ops_ g) 0).
  f_equal. apply filter_ext_in. intros b Hb.
  apply elem_of_seq in Hb. rewrite next_at_byte by lia.
  now rewrite Nat.sub_0_r.
Qed.

Lemma bytes_selecting r op :
  length (filter (fun b => next_at (operation_generator r) (Z.of_nat b)
                           = Some (operation_code op)) (seq 0 256))
  = count_slots (operation_code op) (ops_ (operation_generator r)).
Proof.
  rewrite <- (bytes_selecting_length _ _ (ops_length r)).
  now rewrite ops_length.
Qed.

(** The five slot counts of a table of codes add up to its length. *)
Lemma counts_add_up (l : list Z) :
  Forall (fun v => exists op, v = operation_code op) l ->
  (count_slots 0 l + count_slots 1 l + count_slots 2 l + count_slots 3 l
   + count_slots 4 l = length l)%nat.
Proof.
  unfold count_slots. induction 1 as [|v l [op ->] _ IH]; [reflexivity|].
  rewrite !filter_cons. simpl length.
  destruct op; simpl;
    repeat (destruct (decide _) as [?|?]; try discriminate; try congruence);
    simpl; lia.
Qed.

Lemma ops_are_codes r :
  Forall (fun v => exists op, v = operation_code op) (ops_ (operation_generator r)).
Proof.
  apply Forall_lookup. intros i v Hv.
  assert (Hi : (i < 256)%nat).
  { rewrite <- (ops_length r). eapply lookup_lt_Some, Hv. }
  destruct (slot_is_code r i Hi) as [op Hop].
  exists op. congruence.
Qed.

Lemma frequencies_add_up r :
  (table_frequency (operation_generator r) READ
   + table_frequency (operation_generator r) INSERT
   + table_frequency (operation_generator r) UPDATE
   + table_frequency (operation_generator r) REMOVE
   + table_frequency (operation_generator r) SCAN == 1)%Q.
Proof.
  unfold table_frequency. rewrite !Qinv_plus_distr.
  rewrite <- !Nat2Z.inj_add.
  change (operation_code READ) with 0; change (operation_code INSERT) with 1;
    change (operation_code UPDATE) with 2; change (operation_code REMOVE) with 3;
    change (operation_code SCAN) with 4.
  rewrite (counts_add_up _ (ops_are_codes r)), ops_length. reflexivity.
Qed.

(** The tables a thread holds are those of the ratios they were built
    from, whatever calls come in between. *)
Lemma step_keeps_tables w c :
  (forall i r g, objects w !! i = Some (r, g) ->
     ops_ g = ops_ (operation_generator r)) ->
  forall i r g, objects (step w c) !! i = Some (r, g) ->
    ops_ g = ops_ (operation_generator r).
Proof.
  intros Hw i r g. destruct c as [r' | seed | obj]; simpl.
  - intros H. apply lookup_app_Some in H as [H | [_ H]]; [now apply (Hw i)|].
    apply list_lookup_singleton_Some in H as [_ H]. now inversion H.
  - apply Hw.
  - destruct (objects w !! obj) as [[? ?]|]; apply Hw.
Qed.

Lemma run_keeps_tables cs w :
  (forall i r g, objects w !! i = Some (r, g) ->
     ops_ g = ops_ (operation_generator r)) ->
  forall i r g, objects (run w cs) !! i = Some (r, g) ->
    ops_ g = ops_ (operation_generator r).
Proof.
  revert w; induction cs as [|c cs IH]; intros w Hw; [exact Hw|].
  simpl. apply IH, step_keeps_tables, Hw.
Qed.

(** Calls only ever add objects at the end. *)
Lemma step_keeps_objects w c i x :
  objects w !! i = Some x -> objects (step w c) !! i = Some x.
Proof.
  intros H. destruct c as [r' | seed | obj]; simpl; try exact H.
  - now apply lookup_app_l_Some.
  - destruct (objects w !! obj) as [[? ?]|]; exact H.
Qed.

Lemma run_keeps_objects cs w i x :
  objects w !! i = Some x -> objects (run w cs) !! i = Some x.
Proof.
  revert w; induction cs as [|c cs IH]; intros w H; [exact H|].
  simpl. apply IH, step_keeps_objects, H.
Qed.

(** C10: [next()] is safe for every 32-bit draw: the draw masked with
    [0xff] is an index in [[0, 255]], the access to the 256-entry table is
    in bounds, and the entry returned is one of the five values of
    [operation_t]. *)
Theorem next_index_in_bounds (r : ratios_t) (draw : Z) (st : statics_t) :
  0 <= draw < 2 ^ 32 ->
  (0 <= Z.land draw 255 <= 255) /\
  (Z.to_nat (Z.land draw 255) < length (ops_ (operation_generator r)))%nat /\
  (exists op, next_at (operation_generator r) draw = Some (operation_code op)) /\
  (exists op, fst (next (operation_generator r) st) = Some (operation_code op)).
Proof.
  intros _.
  assert (Hidx : forall d, (Z.to_nat (Z.land d 255) < 256)%nat).
  { intros d. pose proof (land_255_range d). lia. }
  split; [apply land_255_range|].
  split; [rewrite ops_length; apply Hidx|].
  split; [apply slot_is_code, Hidx|].
  unfold next. destruct (next_uint32 (uni_dist st)) as [d u]; simpl.
  apply slot_is_code, Hidx.
Qed.

(** C9: in any sequence of constructions, [set_seed] calls and [next]
    calls of a thread, two objects constructed from the same five ratios
    hold identical tables; later calls, re-seeding among them, leave the
    table of an existing object as it is. *)
Theorem same_ratios_same_table (st : statics_t) (cs cs' : list call)
  (i j : nat) (r : ratios_t) (g1 g2 : operation_generator_t) :
  let w := run {| objects := []; statics := st |} cs in
  objects w !! i = Some (r, g1) ->
  objects w !! j = Some (r, g2) ->
  ops_ g1 = ops_ g2 /\
  objects (run w cs') !! i = Some (r, g1) /\
  ops_ g1 = fill_ops 256 (weights r) default_engine.
Proof.
  intros w H1 H2.
  assert (Hw : forall i r g, objects w !! i = Some (r, g) ->
                 ops_ g = ops_ (operation_generator r)).
  { apply run_keeps_tables. intros k r' g' H. discriminate. }
  split; [|split].
  - rewrite (Hw _ _ _ H1), (Hw _ _ _ H2). reflexivity.
  - apply run_keeps_objects, H1.
  - rewrite (Hw _ _ _ H1). apply ops_unfold.
Qed.

(** C2, as amended: for valid ratios the table has 256 slots, slot [i]
    holding the [i]-th sample that the discrete distribution over the
    ratios yields from one default-constructed engine; among the 256 byte
    indices [next()] can form, as many select an operation as slots hold
    it, so that the frequencies are multiples of [1/256] that add up to
    one; and an operation whose ratio is zero is in no slot and is never
    returned. *)
Theorem table_is_sampled (r : ratios_t) :
  valid_ratios r ->
  length (ops_ (operation_generator r)) = 256%nat /\
  (forall i, (i < 256)%nat ->
     ops_ (operation_generator r) !! i =
     Some (static_cast_operation_t
             (fst (discrete_distribution (weights r)
                     (engine_after i (weights r) default_engine))))) /\
                     (forall op,
     length (filter (fun b => next_at (operation_generator r) (Z.of_nat b)
                              = Some (operation_code op)) (seq 0 256))
     = count_slots (operation_code op) (ops_ (operation_generator r))) /\
     (table_frequency (operation_generator r) READ
   + table_frequency (operation_generator r) INSERT
   + table_frequency (operation_generator r) UPDATE
   + table_frequency (operation_generator r) REMOVE
   + table_frequency (operation_generator r) SCAN == 1)%Q /\
   (forall op, (ratio_of r op == 0)%Q ->
     (table_frequency (operation_generator r) op == 0)%Q /\
     forall draw st,
       next_at (operation_generator r) draw <> Some (operation_code op) /\
       fst (next (operation_generator r) st) <> Some (operation_code op)).
Proof.
  intros Hr.
  split; [apply ops_length|].
  split; [intros i Hi; rewrite ops_unfold; now apply fill_ops_lookup|].
  split; [apply bytes_selecting|].
  split; [apply frequencies_add_up|].
  intros op Hzero.
  assert (Hslot : forall i, ops_ (operation_generator r) !! i
                            <> Some (operation_code op)).
  { intros i Hi. apply (slot_has_weight r i op Hr) in Hi.
    rewrite Hzero in Hi. now apply Qlt_irrefl in Hi. }
  split.
  - unfold table_frequency, count_slots.
    replace (filter (fun x => x = operation_code op) (ops_ (operation_generator r)))
      with (@nil Z); [reflexivity|].
    symmetry. apply filter_none. intros x Hx ->.
    apply list_elem_of_lookup in Hx as [i Hi]. exact (Hslot i Hi).
  - intros draw st. split; [apply Hslot|].
    unfold next. destruct (next_uint32 (uni_dist st)) as [d u]; simpl.
    apply Hslot.
Qed.

End operation_table.

(** ** The GNU components meet the laws of the standard *)

Section gnu_library.

Import gnu.

Lemma lce_seed_wf s : 1 <= lce_seed s < modulus.
Proof.
  unfold lce_seed. pose proof (Z.mod_pos_bound s modulus eq_refl) as Hm.
  destruct (Z.eqb_spec (s mod modulus) 0) as [E|N]; unfold modulus in *; lia.
Qed.

Lemma lce_next_bound x : 0 <= fst (lce_next x) < modulus.
Proof. simpl. apply Z.mod_pos_bound. reflexivity. Qed.

(** The modulus is prime to the multiplier, so a state never becomes 0. *)
Lemma lce_next_wf x : 1 <= x < modulus -> 1 <= fst (lce_next x) < modulus.
Proof.
  intros Hx. pose proof (lce_next_bound x) as Hb.
  assert (Hne : fst (lce_next x) <> 0).
  { simpl. intros E.
    apply Z.mod_divide in E; [|discriminate].
    apply Z.gauss in E; [|reflexivity].
    apply Z.divide_pos_le in E; lia. }
  lia.
Qed.

Lemma lce_next_snd x : snd (lce_next x) = fst (lce_next x).
Proof. reflexivity. Qed.

Lemma generate_canonical_state x :
  snd (generate_canonical x) = fst (lce_next (fst (lce_next x))).
Proof. reflexivity. Qed.

Lemma generate_canonical_value x :
  fst (generate_canonical x)
  = ((fst (lce_next x) - 1) + (fst (lce_next (fst (lce_next x))) - 1) * lce_range)
    # Z.to_pos (lce_range * lce_range).
Proof. reflexivity. Qed.

Lemma generate_canonical_lt_1 x : (fst (generate_canonical x) < 1)%Q.
Proof.
  rewrite generate_canonical_value.
  pose proof (lce_next_bound x) as H1.
  pose proof (lce_next_bound (fst (lce_next x))) as H2.
  set (g1 := fst (lce_next x)) in *.
  set (g2 := fst (lce_next g1)) in *.
  unfold Qlt; simpl Qnum; simpl Qden.
  unfold modulus, lce_range in *. nia.
Qed.

Lemma generate_canonical_pos x :
  1 <= x < modulus -> (0 < fst (generate_canonical x))%Q.
Proof.
  intros Hx. rewrite generate_canonical_value.
  pose proof (lce_next_wf x Hx) as H1.
  pose proof (lce_next_wf _ H1) as H2.
  assert (H3 : fst (lce_next x) = 1 -> fst (lce_next (fst (lce_next x))) = 16807).
  { intros ->. reflexivity. }
  set (g1 := fst (lce_next x)) in *.
  set (g2 := fst (lce_next g1)) in *.
  unfold Qlt; simpl Qnum; simpl Qden.
  unfold modulus, lce_range in *.
  destruct (Z.eq_dec g1 1) as [E|N]; [rewrite (H3 E), E; lia | nia].
Qed.

Lemma lower_bound_Qeq l l' u :
  Forall2 Qeq l l' -> lower_bound l u = lower_bound l' u.
Proof.
  induction 1 as [|c c' l l' Hc _ IH]; [reflexivity|].
  simpl. rewrite IH.
  destruct (Qle_bool u c) eqn:E; destruct (Qle_bool u c') eqn:E'; try reflexivity.
  - apply Qle_bool_iff in E. rewrite Hc in E. apply Qle_bool_iff in E. congruence.
  - apply Qle_bool_iff in E'. rewrite <- Hc in E'. apply Qle_bool_iff in E'. congruence.
Qed.

Lemma lower_bound_last l c u :
  (u <= c)%Q -> (lower_bound (l ++ [c]) u <= length l)%nat.
Proof.
  intros Hu. induction l as [|a l IH]; simpl.
  - apply Qle_bool_iff in Hu. now rewrite Hu.
  - destruct (Qle_bool u a); lia.
Qed.

(** Where the cumulative sums first reach [u], the summand is positive. *)
Lemma lower_bound_partial_sum ps acc u :
  (acc < u)%Q ->
  (lower_bound (partial_sum acc ps) u < length ps)%nat ->
  (0 < nth (lower_bound (partial_sum acc ps) u) ps 0)%Q.
Proof.
  revert acc; induction ps as [|p ps IH]; intros acc Hacc Hlt; simpl in *; [lia|].
  destruct (Qle_bool u (acc + p)) eqn:E.
  - apply Qle_bool_iff in E.
    apply (Qplus_lt_r _ _ acc). rewrite Qplus_0_r.
    eapply Qlt_le_trans; eassumption.
  - apply IH; [|lia].
    apply Qnot_le_lt. intros Hle. apply Qle_bool_iff in Hle. congruence.
Qed.

Lemma partial_sum_length acc ps : length (partial_sum acc ps) = length ps.
Proof. revert acc; induction ps as [|p ps IH]; intros acc; simpl; congruence. Qed.

Lemma partial_sum_last acc ps :
  ps <> [] -> (List.last (partial_sum acc ps) 0 == acc + sum_weights ps)%Q.
Proof.
  revert acc; induction ps as [|p ps IH]; intros acc Hne; [congruence|].
  destruct ps as [|q ps].
  - simpl. rewrite Qplus_0_r. reflexivity.
  - change (List.last (partial_sum acc (p :: q :: ps)) 0%Q)
      with (List.last (partial_sum (acc + p)%Q (q :: ps)) 0%Q).
    rewrite IH by discriminate.
    change (sum_weights (p :: q :: ps)) with (p + sum_weights (q :: ps))%Q.
    now rewrite Qplus_assoc.
Qed.

Lemma sum_scaled ws c :
  (sum_weights (map (fun w => w / c) ws) == sum_weights ws / c)%Q.
Proof.
  induction ws as [|w ws IH]; simpl.
  - unfold Qdiv. now rewrite Qmult_0_l.
  - rewrite IH. unfold Qdiv. now rewrite Qmult_plus_distr_l.
Qed.

Lemma sum_normalize ws :
  (0 < sum_weights ws)%Q -> (sum_weights (normalize ws) == 1)%Q.
Proof.
  intros Hpos. unfold normalize. rewrite sum_scaled.
  unfold Qdiv. apply Qmult_inv_r.
  intros E. rewrite E in Hpos. now apply Qlt_irrefl in Hpos.
Qed.

Lemma Forall2_Qeq_refl l : Forall2 Qeq l l.
Proof. induction l; constructor; [reflexivity | assumption]. Qed.

(** Setting the last cumulative probability to one changes nothing in
    exact arithmetic. *)
Lemma cumulative_partial_sum ws :
  ws <> [] -> (0 < sum_weights ws)%Q ->
  Forall2 Qeq (cumulative ws) (partial_sum 0 (normalize ws)).
Proof.
  intros Hne Hpos. unfold cumulative.
  assert (Hn : normalize ws <> []).
  { unfold normalize. destruct ws; [congruence | discriminate]. }
  assert (Hcp : partial_sum 0 (normalize ws) <> []).
  { intros E. apply (f_equal (@length Q)) in E.
    rewrite partial_sum_length in E. destruct (normalize ws); [congruence | discriminate]. }
  rewrite (app_removelast_last 0%Q Hcp) at 2.
  apply Forall2_app; [apply Forall2_Qeq_refl|].
  constructor; [|constructor].
  rewrite partial_sum_last by exact Hn.
  rewrite sum_normalize by exact Hpos. reflexivity.
Qed.

Lemma cumulative_length ws : ws <> [] -> length (cumulative ws) = length ws.
Proof.
  intros Hne. unfold cumulative.
  rewrite length_app, removelast_length, partial_sum_length.
  unfold normalize. rewrite length_map.
  destruct ws; [congruence | simpl; lia].
Qed.

Lemma discrete_short ws x : (length ws < 2)%nat -> discrete ws x = (0, x).
Proof.
  intros H. unfold discrete.
  destruct (Nat.ltb_spec (length ws) 2); [reflexivity | lia].
Qed.

Lemma discrete_long ws x :
  (2 <= length ws)%nat ->
  discrete ws x =
  (Z.of_nat (lower_bound (cumulative ws) (fst (generate_canonical x))),
   snd (generate_canonical x)).
Proof.
  intros H. unfold discrete.
  destruct (Nat.ltb_spec (length ws) 2); [lia|].
  now destruct (generate_canonical x).
Qed.

Lemma discrete_keeps_wf ws x :
  1 <= x < modulus -> 1 <= snd (discrete ws x) < modulus.
Proof.
  intros Hx. destruct (Nat.lt_ge_cases (length ws) 2) as [H|H].
  - now rewrite discrete_short.
  - rewrite discrete_long by exact H. cbn [snd].
    rewrite generate_canonical_state. now apply lce_next_wf, lce_next_wf.
Qed.

Lemma discrete_in_range ws x :
  ws <> [] -> 0 <= fst (discrete ws x) < Z.of_nat (length ws).
Proof.
  intros Hne. destruct (Nat.lt_ge_cases (length ws) 2) as [H|H].
  - rewrite discrete_short by exact H. destruct ws; [congruence | simpl; lia].
  - rewrite discrete_long by exact H. cbn [fst].
    pose proof (lower_bound_last
                  (removelast (partial_sum 0%Q (normalize ws))) 1%Q
                  (fst (generate_canonical x))
                  (Qlt_le_weak _ _ (generate_canonical_lt_1 x))) as Hlb.
    fold (cumulative ws) in Hlb.
    rewrite removelast_length, partial_sum_length in Hlb.
    unfold normalize in Hlb. rewrite length_map in Hlb. lia.
Qed.

Lemma nth_normalize ws k :
  (k < length ws)%nat ->
  nth k (normalize ws) 0%Q = (nth k ws 0 / sum_weights ws)%Q.
Proof.
  intros Hk. unfold normalize.
  rewrite (nth_indep _ 0%Q (0 / sum_weights ws)%Q) by now rewrite length_map.
  apply (map_nth (fun w => (w / sum_weights ws)%Q)).
Qed.

Lemma discrete_has_weight ws x :
  1 <= x < modulus ->
  (0 < sum_weights ws)%Q ->
  (0 < nth (Z.to_nat (fst (discrete ws x))) ws 0)%Q.
Proof.
  intros Hx Hpos.
  assert (Hne : ws <> []).
  { intros ->. now apply Qlt_irrefl in Hpos. }
  destruct (Nat.lt_ge_cases (length ws) 2) as [H|H].
  - rewrite discrete_short by exact H.
    destruct ws as [|w [|w' ws]]; [congruence | | simpl in H; lia].
    simpl in *. now rewrite Qplus_0_r in Hpos.
  - pose proof (discrete_in_range ws x Hne) as Hr.
    rewrite discrete_long in * by exact H. cbn [fst] in *.
    rewrite Nat2Z.id.
    rewrite (lower_bound_Qeq _ _ _ (cumulative_partial_sum ws Hne Hpos)) in *.
    set (k := lower_bound (partial_sum 0%Q (normalize ws))
                (fst (generate_canonical x))) in *.
    assert (Hk : (k < length ws)%nat) by lia.
    assert (Hp : (0 < nth k (normalize ws) 0)%Q).
    { apply lower_bound_partial_sum.
      - now apply generate_canonical_pos.
      - fold k. unfold normalize. now rewrite length_map. }
    rewrite nth_normalize in Hp by exact Hk.
    assert (Hs : ~ (sum_weights ws == 0)%Q).
    { intros E. rewrite E in Hpos. now apply Qlt_irrefl in Hpos. }
    rewrite <- (Qmult_div_r (nth k ws 0%Q) (sum_weights ws) Hs).
    now apply Qmult_lt_0_compat.
Qed.

(** The GNU engine and discrete distribution satisfy the laws. *)
Lemma gnu_random_laws : StdRandomLaws gnu.random.
Proof.
  constructor.
  - apply lce_seed_wf.
  - apply lce_seed_wf.
  - intros ws g. apply discrete_keeps_wf.
  - intros ws g. apply discrete_in_range.
  - intros ws g Hg _ Hpos. now apply discrete_has_weight.
Qed.

End gnu_library.

(** ** The operation table of the GNU library *)

Section gnu_operation_table.

Import operation_generator.

#[local] Existing Instance gnu.random.
#[local] Existing Instance models.uniform_random.

Lemma quarter_ratios_valid : valid_ratios models.quarter_ratios.
Proof.
  split; [|reflexivity].
  repeat constructor; unfold Qle; simpl; lia.
Qed.

(** The witness of [next_index_in_bounds]. *)
Lemma next_index_in_bounds_witness :
  StdRandomLaws gnu.random /\
  0 <= 305419896 < 2 ^ 32 /\
  exists op,
    next_at (operation_generator (H := gnu.random) models.quarter_ratios)
      305419896 = Some (operation_code op).
Proof.
  split; [exact gnu_random_laws|].
  split; [lia|].
  apply (@next_index_in_bounds gnu.random gnu_random_laws models.uniform_random
           models.quarter_ratios 305419896 models.operation_statics).
  lia.
Defined.

(** The witness of [same_ratios_same_table]: two constructions with a
    re-seeding and a draw in between. *)
Lemma same_ratios_same_table_witness :
  let g := operation_generator (H := gnu.random) models.quarter_ratios in
  let cs := [call_construct models.quarter_ratios; call_set_seed 42;
             call_next 0; call_construct models.quarter_ratios] in
  let w := run (H := gnu.random) (H0 := models.uniform_random)
             {| objects := []; statics := models.operation_statics |} cs in
  objects w !! 0%nat = Some (models.quarter_ratios, g) /\
  objects w !! 1%nat = Some (models.quarter_ratios, g) /\
  objects (run w [call_set_seed 7; call_next 1]) !! 0%nat
  = Some (models.quarter_ratios, g).
Proof.
  intros g cs w.
  split; [reflexivity|]. split; [reflexivity|].
  apply (@same_ratios_same_table gnu.random models.uniform_random
           models.operation_statics cs [call_set_seed 7; call_next 1]
           0%nat 1%nat models.quarter_ratios g g); reflexivity.
Defined.

(** The witness of [table_is_sampled]. *)
Lemma table_is_sampled_witness :
  StdRandomLaws gnu.random /\
  valid_ratios models.quarter_ratios /\
  length (ops_ (operation_generator (H := gnu.random) models.quarter_ratios))
  = 256%nat.
Proof.
  split; [exact gnu_random_laws|].
  split; [exact quarter_ratios_valid|].
  apply (@table_is_sampled gnu.random gnu_random_laws models.uniform_random
           models.quarter_ratios quarter_ratios_valid).
Defined.

(** With a quarter each for READ, INSERT, UPDATE and REMOVE the table
    holds 65, 62, 68 and 61 slots of them. *)
Lemma quarter_table_counts :
  map (fun v => count_slots v
         (ops_ (operation_generator (H := gnu.random) models.quarter_ratios)))
    [0; 1; 2; 3; 4]
  = [65; 62; 68; 61; 0]%nat.
Proof. vm_compute. reflexivity. Qed.

(** The table is decided by the canonical values of the engine. *)
Lemma fill_ops_canonical n ws x :
  (2 <= length ws)%nat ->
  fill_ops n ws x =
  map (fun p => static_cast_operation_t
                  (Z.of_nat (gnu.lower_bound (gnu.cumulative ws) p)))
    (gnu.canonical_draws n x).
Proof.
  intros Hws. revert x; induction n as [|n IH]; intros x; [reflexivity|].
  cbn [fill_ops gnu.canonical_draws].
  change (discrete_distribution ws x) with (gnu.discrete ws x).
  rewrite (discrete_long ws x Hws).
  destruct (gnu.generate_canonical x) as [p x']. cbn [fst snd map].
  now rewrite IH.
Qed.

(** The ratios of the quarter table and their cumulative sums are exact
    in binary floating point, and each of the 256 canonical values is
    farther than [2^-13] from the sums 1/4, 1/2 and 3/4 it is compared
    with: rounding the values to [double] cannot move a slot. *)
Lemma quarter_draws_clear :
  forallb (gnu.clear_of (1 # 8192) [1 # 4; 1 # 2; 3 # 4])
    (gnu.canonical_draws 256 default_engine) = true.
Proof. vm_compute. reflexivity. Qed.

(** C2, as stated, fails: the ratios (1/4, 1/4, 1/4, 1/4, 0) are valid,
    yet UPDATE fills 68 of the 256 slots, so that its frequency differs
    from the configured 1/4 by 4/256, more than the 1/256 claimed. *)
Lemma quarter_table_off_by_four :
  ~ (forall r, valid_ratios r -> forall op,
       (Qabs (table_frequency (operation_generator (H := gnu.random) r) op
              - ratio_of r op) <= 1 # 256)%Q).
Proof.
  intros H.
  specialize (H models.quarter_ratios quarter_ratios_valid UPDATE).
  vm_compute in H. apply H. reflexivity.
Qed.

End gnu_operation_table.

(** ** Key generators: size, seeding and identifier ranges *)

Section key_generators.

Import key_generator.

Context {R : StdRandom} {D : IntDistributions} {K : KeyGeneratorImpl}.

Lemma uint64_small v : 0 <= v < 2 ^ 64 -> uint64_t v = v.
Proof. intros Hv. unfold uint64_t. now apply Z.mod_small. Qed.

Lemma uint8_small v : 0 <= v < 256 -> uint8_t v = v.
Proof. intros Hv. unfold uint8_t. now apply Z.mod_small. Qed.

(** Whatever the operands, [size()] is the sum reduced modulo [2^64]. *)
Lemma size_modulo kg :
  size kg =
  (Z.of_nat (length (prefix_ kg)) + size_ kg + (if tid_prefix kg then 1 else 0))
  mod 2 ^ 64.
Proof.
  unfold size, uint64_t. destruct (tid_prefix kg).
  - now rewrite Z.add_mod_idemp_l by discriminate.
  - now rewrite Z.add_0_r.
Qed.

(** C7: [size()] is the total key width: the length of the prefix plus
    the configured key size, plus one byte exactly when the thread-id
    prefix is enabled (the sum being one a [size_t] can hold). *)
Theorem size_total_width (kg : key_generator_t) :
  0 <= size_ kg ->
  Z.of_nat (length (prefix_ kg)) + size_ kg + 1 < 2 ^ 64 ->
  size kg =
  Z.of_nat (length (prefix_ kg)) + size_ kg + (if tid_prefix kg then 1 else 0).
Proof.
  intros Hs Hb. rewrite size_modulo. apply Z.mod_small.
  destruct (tid_prefix kg); lia.
Qed.

(** C4, as amended: [set_seed(seed)] stores the seed and re-seeds the
    engine of the calling thread at once: whatever state that engine had
    reached, it is left in the state the seed determines; the thread's
    cursor, and the statics of every other thread, created already or
    later, are not touched. *)
Theorem set_seed_reseeds_caller (tls : gmap nat statics_t) (t : nat) (seed : Z) :
  get_seed t (set_seed t seed tls) = seed /\
  generator_ (thread_statics (set_seed t seed tls) t) = engine_seed seed /\
  current_id_ (thread_statics (set_seed t seed tls) t)
  = current_id_ (thread_statics tls t) /\
  forall t', t' <> t ->
    set_seed t seed tls !! t' = tls !! t' /\
    thread_statics (set_seed t seed tls) t' = thread_statics tls t'.
Proof.
  unfold get_seed, thread_statics, set_seed.
  rewrite lookup_insert_eq. simpl.
  repeat split; try reflexivity.
  - now rewrite lookup_insert_ne.
  - now rewrite lookup_insert_ne.
Qed.

(** Two engines in different states are in the same state after the same
    re-seeding. *)
Lemma set_seed_forgets (tls1 tls2 : gmap nat statics_t) (t : nat) (seed : Z) :
  generator_ (thread_statics (set_seed t seed tls1) t)
  = generator_ (thread_statics (set_seed t seed tls2) t).
Proof.
  unfold thread_statics, set_seed. now rewrite !lookup_insert_eq.
Qed.

(** C6: in time-based mode two threads with distinct one-byte thread ids
    never produce byte-identical keys with [in_sequence = true], whatever
    identifiers their cursors hold. *)
Theorem next_tid_keys_differ (kg : key_generator_t) (tid1 tid2 : Z)
  (negative1 negative2 : bool) (st1 st2 : statics_t) :
  0 <= tid1 < 256 ->
  0 <= tid2 < 256 ->
  tid1 <> tid2 ->
  fst (next_tid kg tid1 negative1 true st1)
  <> fst (next_tid kg tid2 negative2 true st2).
Proof.
  intros H1 H2 Hne. unfold next_tid.
  destruct (choose_id kg negative1 true st1) as [id1 st1'].
  destruct (choose_id kg negative2 true st2) as [id2 st2'].
  simpl. intros E. apply app_inv_head in E.
  injection E as E _. rewrite !uint8_small in E by assumption.
  contradiction.
Qed.

(** The same holds for keys drawn at random. *)
Lemma next_tid_keys_differ_any (kg : key_generator_t) (tid1 tid2 : Z)
  (n1 n2 s1 s2 : bool) (st1 st2 : statics_t) :
  0 <= tid1 < 256 -> 0 <= tid2 < 256 -> tid1 <> tid2 ->
  fst (next_tid kg tid1 n1 s1 st1) <> fst (next_tid kg tid2 n2 s2 st2).
Proof.
  intros H1 H2 Hne. unfold next_tid.
  destruct (choose_id kg n1 s1 st1) as [id1 st1'].
  destruct (choose_id kg n2 s2 st2) as [id2 st2'].
  simpl. intros E. apply app_inv_head in E.
  injection E as E _. rewrite !uint8_small in E by assumption.
  contradiction.
Qed.

End key_generators.

(** ** The encoding of identifiers *)

Section key_encoding.

Import key_generator.

Context {R : StdRandom} {K : KeyGeneratorImpl}.

Lemma be_bytes_length n w : length (be_bytes n w) = n.
Proof. induction n as [|n IH]; simpl; congruence. Qed.

Lemma from_be_acc l acc :
  fold_left (fun a b => a * 256 + b) l acc
  = acc * 256 ^ Z.of_nat (length l) + from_be l.
Proof.
  unfold from_be. revert acc; induction l as [|b l IH]; intros acc.
  - simpl. lia.
  - cbn [fold_left length]. rewrite IH, (IH (0 * 256 + b)).
    rewrite Nat2Z.inj_succ, Z.pow_succ_r by lia. ring.
Qed.

Lemma from_be_cons b l :
  from_be (b :: l) = b * 256 ^ Z.of_nat (length l) + from_be l.
Proof.
  unfold from_be at 1. cbn [fold_left]. rewrite from_be_acc. ring.
Qed.

Lemma from_be_app l1 l2 :
  from_be (l1 ++ l2) = from_be l1 * 256 ^ Z.of_nat (length l2) + from_be l2.
Proof.
  unfold from_be at 1. rewrite fold_left_app, from_be_acc. reflexivity.
Qed.

Lemma from_be_zeros k : from_be (repeat 0 k) = 0.
Proof.
  induction k as [|k IH]; [reflexivity|].
  cbn [repeat]. rewrite from_be_cons, IH. lia.
Qed.

Lemma pow_256 n : 256 ^ Z.of_nat n = 2 ^ (8 * Z.of_nat n).
Proof. rewrite Z.pow_mul_r by lia. reflexivity. Qed.

(** Reading back [n] bytes gives the word modulo [2^(8n)]. *)
Lemma from_be_be_bytes n w : from_be (be_bytes n w) = w mod 2 ^ (8 * Z.of_nat n).
Proof.
  induction n as [|n IH].
  - simpl. now rewrite Z.mod_1_r.
  - cbn [be_bytes]. rewrite from_be_cons, IH, be_bytes_length.
    rewrite land_255_mod, Z.shiftr_div_pow2, pow_256 by lia.
    replace (8 * Z.of_nat (S n)) with (8 * Z.of_nat n + 8) by lia.
    rewrite Z.pow_add_r by lia. change (2 ^ 8) with 256.
    rewrite (Z.rem_mul_r w (2 ^ (8 * Z.of_nat n)) 256) by lia. ring.
Qed.

Lemma byte_of_mod w m k :
  0 <= k -> k + 8 <= m ->
  Z.land (Z.shiftr (w mod 2 ^ m) k) 255 = Z.land (Z.shiftr w k) 255.
Proof.
  intros Hk Hm. apply Z.bits_inj'. intros i Hi.
  rewrite !Z.land_spec, !Z.shiftr_spec by lia.
  change 255 with (Z.ones 8).
  destruct (Z.ltb_spec i 8) as [Hlt|Hge].
  - now rewrite Z.mod_pow2_bits_low by lia.
  - rewrite Z.ones_spec_high by lia. now rewrite !andb_false_r.
Qed.

(** The bytes written depend on the low [8n] bits only. *)
Lemma be_bytes_mod n w m :
  8 * Z.of_nat n <= m -> be_bytes n (w mod 2 ^ m) = be_bytes n w.
Proof.
  induction n as [|n IH]; intros Hm; [reflexivity|].
  cbn [be_bytes]. rewrite byte_of_mod, IH by lia. reflexivity.
Qed.

Lemma be_bytes_eq_iff n w1 w2 :
  be_bytes n w1 = be_bytes n w2
  <-> w1 mod 2 ^ (8 * Z.of_nat n) = w2 mod 2 ^ (8 * Z.of_nat n).
Proof.
  split; intros E.
  - rewrite <- !from_be_be_bytes. now rewrite E.
  - rewrite <- (be_bytes_mod n w1 (8 * Z.of_nat n)) by lia.
    rewrite <- (be_bytes_mod n w2 (8 * Z.of_nat n)) by lia.
    now rewrite E.
Qed.

Lemma bits_shift_short kg id :
  size_ kg < 8 ->
  bits_shift kg id = be_bytes (Z.to_nat (size_ kg)) (scramble id).
Proof.
  intros H. unfold bits_shift.
  destruct (Z.ltb_spec (size_ kg) 8); [reflexivity | lia].
Qed.

Lemma bits_shift_long kg id :
  8 <= size_ kg ->
  bits_shift kg id
  = repeat 0 (Z.to_nat (size_ kg - 8)) ++ be_bytes 8 (scramble id).
Proof.
  intros H. unfold bits_shift.
  destruct (Z.ltb_spec (size_ kg) 8); [lia | reflexivity].
Qed.

(** The encoding fills exactly the configured key size. *)
Lemma bits_shift_length kg id :
  0 <= size_ kg -> Z.of_nat (length (bits_shift kg id)) = size_ kg.
Proof.
  intros H. destruct (Z.lt_ge_cases (size_ kg) 8) as [Hs|Hs].
  - rewrite bits_shift_short, be_bytes_length by exact Hs. lia.
  - rewrite bits_shift_long, length_app, repeat_length, be_bytes_length by exact Hs.
    lia.
Qed.

Lemma from_be_bits_shift_long kg id :
  8 <= size_ kg -> from_be (bits_shift kg id) = scramble id mod 2 ^ 64.
Proof.
  intros H. rewrite bits_shift_long, from_be_app, from_be_zeros by exact H.
  rewrite from_be_be_bytes. reflexivity.
Qed.

Lemma from_be_bits_shift_short kg id :
  0 <= size_ kg < 8 ->
  from_be (bits_shift kg id) = scramble id mod 2 ^ (8 * size_ kg).
Proof.
  intros H. rewrite bits_shift_short, from_be_be_bytes by lia.
  now rewrite Z2Nat.id by lia.
Qed.

(** Whatever the scrambling, keys below 8 bytes coincide for some two
    identifiers once the keyspace exceeds the number of such keys. *)
Lemma truncated_keys_collide kg :
  0 <= size_ kg < 8 ->
  2 ^ (8 * size_ kg) < N_ kg ->
  exists id1 id2,
    1 <= id1 /\ id1 < id2 /\ id2 <= N_ kg /\
    bits_shift kg id1 = bits_shift kg id2.
Proof.
  intros Hs HN.
  set (M := 2 ^ (8 * size_ kg)) in *.
  assert (HM : 0 < M) by (apply Z.pow_pos_nonneg; lia).
  destruct (nat_pigeonhole
              (fun i => Z.to_nat (scramble (Z.of_nat i + 1) mod M))
              (S (Z.to_nat M)) (Z.to_nat M)) as (i1 & i2 & Hi & Hf).
  { lia. }
  { intros i _. pose proof (Z.mod_pos_bound (scramble (Z.of_nat i + 1)) M HM). lia. }
  exists (Z.of_nat i1 + 1), (Z.of_nat i2 + 1).
  repeat split; try lia.
  rewrite !bits_shift_short by lia.
  apply be_bytes_eq_iff. rewrite Z2Nat.id by lia. fold M.
  pose proof (Z.mod_pos_bound (scramble (Z.of_nat i1 + 1)) M HM).
  pose proof (Z.mod_pos_bound (scramble (Z.of_nat i2 + 1)) M HM).
  lia.
Qed.

(** *** The rotation and its inverse *)

Lemma pow2_64_split k : 0 <= k <= 64 -> 2 ^ 64 = 2 ^ k * 2 ^ (64 - k).
Proof. intros Hk. rewrite <- Z.pow_add_r by lia. f_equal. lia. Qed.

(** The rotation moves the low [64 - k] bits up and the high [k] bits
    down. *)
Lemma rotl64_parts k w :
  0 <= k < 64 ->
  rotl64 k w = 2 ^ k * (w mod 2 ^ (64 - k)) + w / 2 ^ (64 - k).
Proof.
  intros Hk. unfold rotl64, uint64_t.
  rewrite Z.shiftl_mul_pow2, Z.shiftr_div_pow2 by lia.
  rewrite (pow2_64_split k) by lia.
  rewrite (Z.mul_comm w), Z.mul_mod_distr_l; [reflexivity | |];
    apply Z.pow_nonzero; lia.
Qed.

Lemma rotr64_parts k v :
  0 <= k < 64 ->
  rotr64 k v = v / 2 ^ k + 2 ^ (64 - k) * (v mod 2 ^ k).
Proof.
  intros Hk. unfold rotr64, uint64_t.
  rewrite Z.shiftl_mul_pow2, Z.shiftr_div_pow2 by lia.
  rewrite (pow2_64_split k), (Z.mul_comm (2 ^ k)) by lia.
  rewrite (Z.mul_comm v), Z.mul_mod_distr_l; [reflexivity | |];
    apply Z.pow_nonzero; lia.
Qed.

(** The two parts of a rotated word have no bit in common: the sum is
    the bitwise or of the C expression. *)
Lemma rotl64_lor k w :
  0 <= k < 64 -> 0 <= w < 2 ^ 64 ->
  rotl64 k w = Z.lor (uint64_t (Z.shiftl w k)) (Z.shiftr w (64 - k)).
Proof.
  intros Hk Hw. unfold rotl64, uint64_t. apply Z.add_nocarry_lor.
  apply Z.bits_inj'. intros i Hi. rewrite Z.land_spec, Z.bits_0.
  destruct (Z.ltb_spec i k) as [Hlt|Hge].
  - rewrite Z.mod_pow2_bits_low, Z.shiftl_spec_low by lia. reflexivity.
  - rewrite Z.shiftr_spec by lia.
    rewrite <- (Z.mod_small w (2 ^ 64)) at 2 by exact Hw.
    rewrite (Z.mod_pow2_bits_high w 64) by lia. apply andb_false_r.
Qed.

Lemma rotr64_lor k w :
  0 <= k < 64 -> 0 <= w < 2 ^ 64 ->
  rotr64 k w = Z.lor (Z.shiftr w k) (uint64_t (Z.shiftl w (64 - k))).
Proof.
  intros Hk Hw. unfold rotr64, uint64_t. apply Z.add_nocarry_lor.
  apply Z.bits_inj'. intros i Hi. rewrite Z.land_spec, Z.bits_0.
  destruct (Z.ltb_spec i (64 - k)) as [Hlt|Hge].
  - rewrite Z.mod_pow2_bits_low, Z.shiftl_spec_low by lia. apply andb_false_r.
  - rewrite Z.shiftr_spec by lia.
    rewrite <- (Z.mod_small w (2 ^ 64)) at 1 by exact Hw.
    rewrite (Z.mod_pow2_bits_high w 64) by lia. reflexivity.
Qed.

(** A word [a * r + q] with [q < a]: quotient [r], remainder [q]. *)
Lemma div_mod_parts a r q :
  0 <= q < a -> (a * r + q) / a = r /\ (a * r + q) mod a = q.
Proof.
  intros Hq. split.
  - symmetry. apply (Z.div_unique_pos _ _ _ q); [exact Hq | reflexivity].
  - symmetry. apply (Z.mod_unique_pos _ _ r); [exact Hq | reflexivity].
Qed.

Lemma rotl64_range k w :
  0 <= k < 64 -> 0 <= w < 2 ^ 64 -> 0 <= rotl64 k w < 2 ^ 64.
Proof.
  intros Hk Hw. rewrite rotl64_parts by exact Hk.
  rewrite (pow2_64_split k) in * by lia.
  assert (Ha : 0 < 2 ^ k) by (apply Z.pow_pos_nonneg; lia).
  assert (Hb : 0 < 2 ^ (64 - k)) by (apply Z.pow_pos_nonneg; lia).
  pose proof (Z.mod_pos_bound w _ Hb) as Hr.
  assert (Hq : 0 <= w / 2 ^ (64 - k) < 2 ^ k).
  { split; [apply Z.div_pos; lia | apply Z.div_lt_upper_bound; lia]. }
  nia.
Qed.

Lemma rotr64_range k v :
  0 <= k < 64 -> 0 <= v < 2 ^ 64 -> 0 <= rotr64 k v < 2 ^ 64.
Proof.
  intros Hk Hv. rewrite rotr64_parts by exact Hk.
  rewrite (pow2_64_split k) in * by lia.
  assert (Ha : 0 < 2 ^ k) by (apply Z.pow_pos_nonneg; lia).
  assert (Hb : 0 < 2 ^ (64 - k)) by (apply Z.pow_pos_nonneg; lia).
  pose proof (Z.mod_pos_bound v _ Ha) as Hr.
  assert (Hq : 0 <= v / 2 ^ k < 2 ^ (64 - k)).
  { split; [apply Z.div_pos; lia | apply Z.div_lt_upper_bound; lia]. }
  nia.
Qed.

(** Rotating to the right undoes rotating to the left. *)
Lemma rotr64_rotl64 k w :
  0 <= k < 64 -> 0 <= w < 2 ^ 64 -> rotr64 k (rotl64 k w) = w.
Proof.
  intros Hk Hw. rewrite rotr64_parts, rotl64_parts by exact Hk.
  assert (Ha : 0 < 2 ^ k) by (apply Z.pow_pos_nonneg; lia).
  assert (Hb : 0 < 2 ^ (64 - k)) by (apply Z.pow_pos_nonneg; lia).
  assert (Hq : 0 <= w / 2 ^ (64 - k) < 2 ^ k).
  { split; [apply Z.div_pos; lia | apply Z.div_lt_upper_bound;
      [lia | rewrite Z.mul_comm, <- pow2_64_split; lia]]. }
  destruct (div_mod_parts (2 ^ k) (w mod 2 ^ (64 - k)) (w / 2 ^ (64 - k)) Hq)
    as [Ed Em].
  rewrite Ed, Em. pose proof (Z.div_mod w (2 ^ (64 - k))). lia.
Qed.

(** And the other way round. *)
Lemma rotl64_rotr64 k v :
  0 <= k < 64 -> 0 <= v < 2 ^ 64 -> rotl64 k (rotr64 k v) = v.
Proof.
  intros Hk Hv. rewrite rotl64_parts, rotr64_parts by exact Hk.
  assert (Ha : 0 < 2 ^ k) by (apply Z.pow_pos_nonneg; lia).
  assert (Hb : 0 < 2 ^ (64 - k)) by (apply Z.pow_pos_nonneg; lia).
  assert (Hq : 0 <= v / 2 ^ k < 2 ^ (64 - k)).
  { split; [apply Z.div_pos; lia | apply Z.div_lt_upper_bound;
      [lia | rewrite <- pow2_64_split; lia]]. }
  rewrite (Z.add_comm (v / 2 ^ k)).
  destruct (div_mod_parts (2 ^ (64 - k)) (v mod 2 ^ k) (v / 2 ^ k) Hq)
    as [Ed Em].
  rewrite Ed, Em. pose proof (Z.div_mod v (2 ^ k)). lia.
Qed.

(** *** What the rotation gives the encoding *)

Lemma scramble_range k (HR : RotationScramble k) id :
  0 <= id < 2 ^ 64 -> 0 <= scramble id < 2 ^ 64.
Proof.
  intros Hid. rewrite (scramble_rotates k HR) by exact Hid.
  apply rotl64_range; [apply (rotation_bits k HR) | exact Hid].
Qed.

Lemma unscramble_scramble k (HR : RotationScramble k) id :
  0 <= id < 2 ^ 64 -> unscramble (scramble id) = id.
Proof.
  intros Hid.
  rewrite (unscramble_rotates k HR) by now apply (scramble_range k HR).
  rewrite (scramble_rotates k HR) by exact Hid.
  apply rotr64_rotl64; [apply (rotation_bits k HR) | exact Hid].
Qed.

Lemma scramble_unscramble k (HR : RotationScramble k) w :
  0 <= w < 2 ^ 64 -> scramble (unscramble w) = w.
Proof.
  intros Hw. rewrite (unscramble_rotates k HR) by exact Hw.
  rewrite (scramble_rotates k HR)
    by (apply rotr64_range; [apply (rotation_bits k HR) | exact Hw]).
  apply rotl64_rotr64; [apply (rotation_bits k HR) | exact Hw].
Qed.

(** With at least 8 bytes the whole scrambled word is kept. *)
Lemma decode_bits_shift k (HR : RotationScramble k) kg id :
  8 <= size_ kg -> 0 <= id < 2 ^ 64 -> decode (bits_shift kg id) = id.
Proof.
  intros H8 Hid. unfold decode. rewrite from_be_bits_shift_long by exact H8.
  rewrite Z.mod_small by now apply (scramble_range k HR).
  now apply (unscramble_scramble k HR).
Qed.

Lemma bits_shift_inj k (HR : RotationScramble k) kg id1 id2 :
  8 <= size_ kg -> 0 <= id1 < 2 ^ 64 -> 0 <= id2 < 2 ^ 64 ->
  bits_shift kg id1 = bits_shift kg id2 -> id1 = id2.
Proof.
  intros H8 H1 H2 E.
  rewrite <- (decode_bits_shift k HR kg id1 H8 H1).
  rewrite <- (decode_bits_shift k HR kg id2 H8 H2).
  now rewrite E.
Qed.

(** Below 8 bytes decoding gives the identifier back exactly when no
    bit of its scrambled word was discarded. *)
Lemma decode_bits_shift_short k (HR : RotationScramble k) kg id :
  0 <= size_ kg < 8 -> 0 <= id < 2 ^ 64 ->
  decode (bits_shift kg id) = id <-> scramble id < 2 ^ (8 * size_ kg).
Proof.
  intros Hs Hid. unfold decode. rewrite from_be_bits_shift_short by exact Hs.
  pose proof (scramble_range k HR id Hid) as Hr.
  assert (HM : 0 < 2 ^ (8 * size_ kg)) by (apply Z.pow_pos_nonneg; lia).
  assert (HM64 : 2 ^ (8 * size_ kg) <= 2 ^ 64)
    by (apply Z.pow_le_mono_r; lia).
  pose proof (Z.mod_pos_bound (scramble id) _ HM) as Hv.
  split.
  - intros E. apply (f_equal scramble) in E.
    rewrite (scramble_unscramble k HR) in E by lia. lia.
  - intros Hfit. rewrite Z.mod_small by lia.
    now apply (unscramble_scramble k HR).
Qed.


End key_encoding.

(** ** The statistics record *)

Section stats_layout.

Import benchmark.

Context {V : VectorLayout}.

Lemma round_up_multiple x a : a <> 0 -> round_up x a mod a = 0.
Proof. intros Ha. unfold round_up. now apply Z.mod_mul. Qed.

Lemma round_up_ge x a : 0 < a -> x <= round_up x a.
Proof.
  intros Ha. unfold round_up.
  pose proof (Z.div_mod (x + a - 1) a ltac:(lia)) as Hd.
  pose proof (Z.mod_pos_bound (x + a - 1) a Ha) as Hm.
  nia.
Qed.

Lemma stats_t_align_cases k :
  0 <= k -> vector_align = 2 ^ k ->
  exists q, 1 <= q /\ alignof_stats_t = cache_line_size * q.
Proof.
  intros Hk Hva. unfold alignof_stats_t, struct_align, stats_t_members; simpl.
  rewrite Hva. unfold cache_line_size.
  destruct (Z.le_gt_cases k 6) as [Hle|Hgt].
  - exists 1. assert (2 ^ k <= 2 ^ 6) by (apply Z.pow_le_mono_r; lia).
    change (2 ^ 6) with 64 in *. lia.
  - exists (2 ^ (k - 6)).
    assert (Hp : 2 ^ k = 64 * 2 ^ (k - 6)).
    { change 64 with (2 ^ 6). rewrite <- Z.pow_add_r by lia. f_equal. lia. }
    assert (1 <= 2 ^ (k - 6)).
    { pose proof (Z.pow_pos_nonneg 2 (k - 6)); lia. }
    lia.
Qed.

Lemma stats_t_end_positive :
  0 <= vector_size -> 0 < vector_align -> 0 < layout_end 0 stats_t_members.
Proof.
  intros Hs Ha. unfold stats_t_members; simpl.
  pose proof (round_up_ge 0 8 ltac:(lia)).
  pose proof (round_up_ge (round_up 0 8 + 8) 8 ltac:(lia)).
  pose proof (round_up_ge (round_up (round_up 0 8 + 8) 8 + 8) vector_align Ha).
  pose proof (round_up_ge
                (round_up (round_up (round_up 0 8 + 8) 8 + 8) vector_align
                 + vector_size) 8 ltac:(lia)).
  lia.
Qed.

(** Addresses in two different elements of an array of records whose
    size is [m] cache lines, at a base on a line boundary, are on
    different lines. *)
Lemma lines_disjoint (b m i j o1 o2 : Z) :
  1 <= m -> i <> j ->
  0 <= o1 < 64 * m -> 0 <= o2 < 64 * m ->
  (64 * b + i * (64 * m) + o1) / 64 <> (64 * b + j * (64 * m) + o2) / 64.
Proof.
  intros Hm Hij H1 H2.
  replace (64 * b + i * (64 * m) + o1) with ((b + i * m) * 64 + o1) by ring.
  replace (64 * b + j * (64 * m) + o2) with ((b + j * m) * 64 + o2) by ring.
  rewrite !Z.div_add_l by lia.
  assert (0 <= o1 / 64 < m).
  { split; [apply Z.div_pos; lia | apply Z.div_lt_upper_bound; lia]. }
  assert (0 <= o2 / 64 < m).
  { split; [apply Z.div_pos; lia | apply Z.div_lt_upper_bound; lia]. }
  nia.
Qed.

(** C8: [stats_t] is padded and aligned so that its size is a multiple
    of the 64-byte cache line; hence in an array of records, which starts
    at an address aligned as the type requires, no byte of one thread's
    record, its counters among them, is on a cache line with a byte of
    another thread's record. *)
Theorem stats_t_fills_cache_lines (k : Z) :
  0 <= vector_size ->
  0 <= k ->
  vector_align = 2 ^ k ->
  sizeof_stats_t mod cache_line_size = 0 /\
  0 < sizeof_stats_t /\
  alignof_stats_t mod cache_line_size = 0 /\
  forall base i j o1 o2,
    base mod alignof_stats_t = 0 ->
    i <> j ->
    0 <= o1 < sizeof_stats_t ->
    0 <= o2 < sizeof_stats_t ->
    cache_line (element_address base i o1)
    <> cache_line (element_address base j o2).
Proof.
  intros Hs Hk Hva.
  destruct (stats_t_align_cases k Hk Hva) as (q & Hq & HA).
  assert (Hpos : 0 < vector_align).
  { rewrite Hva. apply Z.pow_pos_nonneg; lia. }
  pose proof (stats_t_end_positive Hs Hpos) as Hend.
  assert (HS : exists m, 1 <= m /\ sizeof_stats_t = cache_line_size * m).
  { unfold sizeof_stats_t, struct_size. fold alignof_stats_t. rewrite HA.
    unfold round_up, cache_line_size in *.
    set (E := layout_end 0 stats_t_members) in *.
    exists ((E + 64 * q - 1) / (64 * q) * q). split; [|ring].
    assert (1 <= (E + 64 * q - 1) / (64 * q)).
    { apply Z.div_le_lower_bound; lia. }
    nia. }
  destruct HS as (m & Hm & HSm).
  unfold cache_line_size in *.
  split; [rewrite HSm, Z.mul_comm; now apply Z.mod_mul|].
  split; [lia|].
  split; [rewrite HA, Z.mul_comm; now apply Z.mod_mul|].
  intros base i j o1 o2 Hbase Hij H1 H2.
  unfold cache_line, element_address, cache_line_size.
  apply Z.mod_divide in Hbase; [|lia].
  destruct Hbase as [c Hc]. rewrite HA in Hc.
  rewrite HSm in *.
  replace base with (64 * (c * q)) by lia.
  apply lines_disjoint; assumption.
Qed.

End stats_layout.

(** ** The load phase *)

Section load_phase.

Import key_generator benchmark.

Context {R : StdRandom} {D : IntDistributions} {K : KeyGeneratorImpl}.
Context {T : TreeApi} {G : ValueGenerator}.

(** In sequence, the load's [next] returns the key of the cursor and
    advances it; the engine is not used. *)
Lemma load_next_in_sequence kg tid st :
  load_next kg tid st =
  (key_of_id kg tid (current_id_ st),
   {| seed_ := seed_ st; generator_ := generator_ st;
      current_id_ := uint64_t (current_id_ st + 1) |}).
Proof.
  unfold load_next, key_of_id, next_tid, next.
  destruct (tid_prefix kg); reflexivity.
Qed.

Lemma load_loop_step tid n b :
  load_loop tid (S n) b =
  let key := key_of_id (key_generator_ b) tid (current_id_ (key_statics b)) in
  let c := {| call_key := key;
              call_key_size := size (key_generator_ b);
              call_value := fst (value_next (value_generator_ b));
              call_value_size := value_size (opt_ b) |} in
  let r := tree_insert (tree_ b) (call_key c) (call_key_size c)
             (call_value c) (call_value_size c) in
  let b' := {| tree_ := snd r; opt_ := opt_ b;
               key_generator_ := key_generator_ b;
               value_generator_ := snd (value_next (value_generator_ b));
               key_statics :=
                 {| seed_ := seed_ (key_statics b);
                    generator_ := generator_ (key_statics b);
                    current_id_ := uint64_t (current_id_ (key_statics b) + 1) |} |} in
  if fst r
  then (c :: fst (fst (load_loop tid n b')), snd (fst (load_loop tid n b')),
        snd (load_loop tid n b'))
  else ([c], load_fatal, b').
Proof.
  cbn [load_loop]. rewrite load_next_in_sequence.
  destruct (value_next (value_generator_ b)) as [v vg]. cbn [fst snd call_key
    call_key_size call_value call_value_size].
  destruct (tree_insert _ _ _ _ _) as [ok t]. cbn [fst snd].
  destruct ok; [|reflexivity].
  now destruct (load_loop tid n _) as [[calls outcome] b''].
Qed.

(** The calls issued carry the keys of consecutive identifiers; there are
    at most [n] of them, and exactly [n] unless an insert was rejected. *)
Lemma load_loop_calls tid n b :
  0 <= current_id_ (key_statics b) ->
  current_id_ (key_statics b) + Z.of_nat n <= 2 ^ 64 ->
  let calls := fst (fst (load_loop tid n b)) in
  (length calls <= n)%nat /\
  (snd (fst (load_loop tid n b)) = load_complete -> length calls = n) /\
  map call_key calls =
  map (key_of_id (key_generator_ b) tid)
    (seqZ (current_id_ (key_statics b)) (Z.of_nat (length calls))).
Proof.
  revert b; induction n as [|n IH]; intros b Hc Hn.
  - simpl. repeat split; reflexivity || lia.
  - rewrite load_loop_step. cbv zeta.
    set (key := key_of_id (key_generator_ b) tid _).
    set (c := {| call_key := key |}).
    set (r := tree_insert _ _ _ _ _).
    set (b' := {| tree_ := snd r |}).
    destruct (fst r).
    + cbn [fst snd length].
      destruct n as [|n'].
      * simpl. repeat split; lia || (now rewrite ?Z.add_0_r).
      * assert (Hc' : current_id_ (key_statics b')
                      = current_id_ (key_statics b) + 1).
        { unfold b'; simpl. apply Z.mod_small. lia. }
        destruct (IH b') as (Hlen & Hall & Hkeys); [lia | lia |].
        repeat split.
        -- simpl in *. lia.
        -- intros Hd. specialize (Hall Hd). simpl in *. lia.
        -- cbn [map]. rewrite Hkeys, Hc'.
           rewrite Nat2Z.inj_succ.
           rewrite (seqZ_cons (current_id_ (key_statics b))) by lia.
           rewrite Z.pred_succ. reflexivity.
    + simpl. repeat split; lia || discriminate || (now rewrite ?Z.add_0_r).
Qed.

(** Every call of the load passes a key of the size it announces. *)
Lemma load_loop_key_sizes tid n b :
  0 <= size_ (key_generator_ b) ->
  Z.of_nat (length (prefix_ (key_generator_ b))) + size_ (key_generator_ b) + 1
  < 2 ^ 64 ->
  Forall (fun c => Z.of_nat (length (call_key c)) = call_key_size c)
    (fst (fst (load_loop tid n b))).
Proof.
  revert b; induction n as [|n IH]; intros b Hs Hw; [constructor|].
  rewrite load_loop_step. cbv zeta.
  assert (Hlen : Z.of_nat (length (key_of_id (key_generator_ b) tid
                                     (current_id_ (key_statics b))))
                 = size (key_generator_ b)).
  { rewrite size_modulo.
    rewrite Z.mod_small by (destruct (tid_prefix (key_generator_ b)); lia).
    unfold key_of_id.
    rewrite !length_app, !Nat2Z.inj_add, bits_shift_length by exact Hs.
    destruct (tid_prefix (key_generator_ b)); cbn [length]; lia. }
  destruct (fst (tree_insert _ _ _ _ _)).
  - cbn [fst]. constructor; [exact Hlen|]. now apply IH.
  - cbn [fst]. constructor; [exact Hlen | constructor].
Qed.

Lemma bits_shift_same_size kg1 kg2 id :
  size_ kg1 = size_ kg2 -> bits_shift kg1 id = bits_shift kg2 id.
Proof. intros E. unfold bits_shift. now rewrite E. Qed.

Lemma size_same kg1 kg2 :
  prefix_ kg1 = prefix_ kg2 -> size_ kg1 = size_ kg2 ->
  tid_prefix kg1 = tid_prefix kg2 -> size kg1 = size kg2.
Proof. intros E1 E2 E3. unfold size. now rewrite E1, E2, E3. Qed.

Lemma key_of_id_same kg1 kg2 tid id :
  prefix_ kg1 = prefix_ kg2 -> size_ kg1 = size_ kg2 ->
  tid_prefix kg1 = tid_prefix kg2 ->
  key_of_id kg1 tid id = key_of_id kg2 tid id.
Proof.
  intros E1 E2 E3. unfold key_of_id.
  now rewrite E1, E3, (bits_shift_same_size _ _ _ E2).
Qed.

Lemma load_loop_same tid n b1 b2 :
  same_load_inputs b1 b2 ->
  fst (load_loop tid n b1) = fst (load_loop tid n b2).
Proof.
  revert b1 b2; induction n as [|n IH]; intros b1 b2 Hs; [reflexivity|].
  destruct Hs as (Ht & Hv & Hvs & Hp & Hz & Htid & Hc).
  rewrite !load_loop_step. cbv zeta.
  rewrite <- Ht, <- Hv, <- Hvs, <- Hc.
  rewrite <- (key_of_id_same _ _ tid _ Hp Hz Htid).
  rewrite <- (size_same _ _ Hp Hz Htid).
  destruct (fst (tree_insert _ _ _ _ _)); [|reflexivity].
  cbn [fst snd].
  match goal with
  | |- (_ :: fst (fst (load_loop tid n ?x)), snd (fst (load_loop tid n ?x)))
       = (_ :: fst (fst (load_loop tid n ?y)), snd (fst (load_loop tid n ?y))) =>
      rewrite (IH x y); [reflexivity|]
  end.
  unfold same_load_inputs; simpl. rewrite Hc. repeat split; assumption.
Qed.

Lemma make_key_generator_fields opt :
  prefix_ (make_key_generator opt) = key_prefix opt /\
  size_ (make_key_generator opt) = key_size opt /\
  N_ (make_key_generator opt) = num_records opt /\
  tid_prefix (make_key_generator opt)
  = match bm_mode opt with Time => true | Operation => false end.
Proof. unfold make_key_generator. destruct (key_distribution opt); auto. Qed.

(** Two keys of one generator and one thread are equal exactly when
    their encoded identifiers are. *)
Lemma key_of_id_eq_iff kg tid id1 id2 :
  key_of_id kg tid id1 = key_of_id kg tid id2
  <-> bits_shift kg id1 = bits_shift kg id2.
Proof.
  unfold key_of_id. split; intros E.
  - now do 2 apply app_inv_head in E.
  - now rewrite E.
Qed.

(** Two maps of a list that identify the same pairs of its elements
    have repetitions together. *)
Lemma NoDup_map_iff {A B C : Type} (f : A -> B) (h : A -> C) (l : list A) :
  (forall x y, x ∈ l -> y ∈ l -> f x = f y <-> h x = h y) ->
  NoDup (map f l) <-> NoDup (map h l).
Proof.
  induction l as [|a l IH]; intros Hfh; [split; constructor|].
  assert (IH' : NoDup (map f l) <-> NoDup (map h l)).
  { apply IH. intros x y Hx Hy. apply Hfh; now right. }
  assert (Hin : f a ∈ map f l <-> h a ∈ map h l).
  { split; intros Hm.
    - apply (list_elem_of_fmap f) in Hm as (y & E & Hy).
      apply (list_elem_of_fmap h). exists y. split; [|exact Hy].
      apply (Hfh a y); [now left | now right | exact E].
    - apply (list_elem_of_fmap h) in Hm as (y & E & Hy).
      apply (list_elem_of_fmap f). exists y. split; [|exact Hy].
      apply (Hfh a y); [now left | now right | exact E]. }
  cbn [map]. rewrite !NoDup_cons. tauto.
Qed.

(** The keys of consecutive identifiers are pairwise distinct when they
    are 8 bytes or more. *)
Lemma sequential_keys_distinct k (HR : RotationScramble k) kg tid n :
  8 <= size_ kg -> 0 <= n < 2 ^ 64 ->
  NoDup (map (key_of_id kg tid) (seqZ 1 n)).
Proof.
  intros H8 Hn.
  apply (NoDup_fmap_2_strong (key_of_id kg tid)); [|apply NoDup_seqZ].
  intros x y Hx Hy E. apply elem_of_seqZ in Hx, Hy.
  apply key_of_id_eq_iff in E.
  apply (bits_shift_inj k HR kg x y H8); [lia | lia | exact E].
Qed.

(** Below 8 bytes they are as distinct as the low bits of the scrambled
    identifiers. *)
Lemma sequential_keys_truncated kg tid n :
  0 <= size_ kg < 8 ->
  NoDup (map (key_of_id kg tid) (seqZ 1 n))
  <-> NoDup (map (fun id => scramble id mod 2 ^ (8 * size_ kg)) (seqZ 1 n)).
Proof.
  intros Hs. apply NoDup_map_iff. intros x y _ _.
  rewrite key_of_id_eq_iff, !bits_shift_short by lia.
  rewrite be_bytes_eq_iff. now rewrite Z2Nat.id by lia.
Qed.


End load_phase.

(** ** Loading a structure that keeps a set of keys *)

Section load_key_set.

Import key_generator benchmark.

Context {R : StdRandom} {D : IntDistributions} {K : KeyGeneratorImpl}.
Context {G : ValueGenerator} (k : Z) (HR : RotationScramble k).

#[local] Existing Instance models.key_set.

(** While every key held is that of an identifier below the cursor, no
    insert of the load is rejected. *)
Lemma load_loop_key_set_completes tid n (b : benchmark_t) :
  8 <= size_ (key_generator_ b) ->
  0 <= current_id_ (key_statics b) ->
  current_id_ (key_statics b) + Z.of_nat n <= 2 ^ 64 ->
  (forall key, key ∈ tree_ b ->
     exists id, 0 <= id < current_id_ (key_statics b) /\
                key = key_of_id (key_generator_ b) tid id) ->
  snd (fst (load_loop tid n b)) = load_complete.
Proof.
  revert b; induction n as [|n IH]; intros b H8 Hc Hn Hinv; [reflexivity|].
  rewrite load_loop_step. cbv zeta.
  set (key := key_of_id (key_generator_ b) tid _).
  assert (Hfresh : key ∉ tree_ b).
  { intros Hin. destruct (Hinv key Hin) as (id & Hid & E).
    unfold key in E. apply key_of_id_eq_iff in E.
    apply (bits_shift_inj k HR) in E; [lia | exact H8 | lia | lia]. }
  cbn [tree_insert models.key_set call_key].
  rewrite bool_decide_eq_false_2 by exact Hfresh.
  cbn [fst snd].
  destruct n as [|n']; [reflexivity|].
  apply IH; cbn [key_generator_ key_statics current_id_ tree_].
  - exact H8.
  - unfold uint64_t. apply Z.mod_pos_bound. reflexivity.
  - rewrite uint64_small by lia. lia.
  - rewrite uint64_small by lia. intros key' Hk.
    apply elem_of_cons in Hk as [-> | Hk].
    + exists (current_id_ (key_statics b)). split; [lia | reflexivity].
    + destruct (Hinv key' Hk) as (id & Hid & E). exists id. split; [lia | exact E].
Qed.

(** Into an empty structure of this kind, and with keys of 8 bytes or
    more, the load runs to completion. *)
Lemma load_key_set_completes (opt : options_t) (vg : value_generator_t)
  (g : engine) (tid : Z) :
  0 <= num_records opt < 2 ^ 64 ->
  8 <= key_size opt ->
  snd (fst (load tid (benchmark models.no_keys opt vg g))) = load_complete.
Proof.
  intros HN H8. unfold load. apply load_loop_key_set_completes.
  - cbn [benchmark key_generator_].
    now rewrite (proj1 (proj2 (make_key_generator_fields opt))).
  - cbn. lia.
  - cbn. lia.
  - intros key Hk. cbn in Hk. now apply not_elem_of_nil in Hk.
Qed.

End load_key_set.

(** ** The models meet what is assumed of the interfaces *)

Section model_laws.

Import key_generator benchmark.

#[local] Existing Instance gnu.random.
#[local] Existing Instance models.distributions.
#[local] Existing Instance models.plain_keys.
#[local] Existing Instance models.key_set.
#[local] Existing Instance models.zero_values.
#[local] Existing Instance models.vector_lp64.

(** The identity is the rotation by no bit. *)
Lemma plain_keys_rotation : RotationScramble 0.
Proof.
  constructor; [lia | |]; intros w Hw; cbn [scramble unscramble models.plain_keys].
  - unfold rotl64, uint64_t. rewrite Z.shiftl_0_r, Z.shiftr_div_pow2 by lia.
    rewrite Z.mod_small, Z.div_small by exact Hw. lia.
  - unfold rotr64, uint64_t. rewrite Z.shiftr_0_r, Z.shiftl_mul_pow2 by lia.
    rewrite Z.mod_mul by discriminate. lia.
Qed.

(** The witness of [size_total_width]: 4 + 8 + 1 bytes. *)
Lemma size_total_width_witness :
  0 <= size_ models.user_keys /\
  Z.of_nat (length (prefix_ models.user_keys)) + size_ models.user_keys + 1
  < 2 ^ 64 /\
  size models.user_keys = 13.
Proof.
  split; [simpl; lia|]. split; [simpl; lia|].
  apply (size_total_width models.user_keys); simpl; lia.
Defined.

(** The witness of [next_tid_keys_differ]: threads 0 and 1. *)
Lemma next_tid_keys_differ_witness :
  0 <= 0 < 256 /\ 0 <= 1 < 256 /\ 0 <> 1 /\
  fst (next_tid models.user_keys 0 false true models.advanced_statics)
  <> fst (next_tid models.user_keys 1 false true models.advanced_statics).
Proof.
  split; [lia|]. split; [lia|]. split; [lia|].
  apply (next_tid_keys_differ models.user_keys 0 1 false false
           models.advanced_statics models.advanced_statics); lia.
Defined.


(** C4, as stated, fails: the engine of a thread that was constructed
    and advanced by one draw is in state 16807; [set_seed(1729)] called
    by that thread leaves it in state 1729. *)
Lemma set_seed_resets_advanced_engine :
  ~ (forall (tls : gmap nat statics_t) (t : nat) (seed : Z),
       generator_ (thread_statics (set_seed t seed tls) t)
       = generator_ (thread_statics tls t)).
Proof.
  intros H.
  specialize (H {[ 0%nat := models.advanced_statics ]} 0%nat 1729).
  unfold thread_statics, set_seed in H.
  rewrite lookup_insert_eq, lookup_singleton_eq in H.
  vm_compute in H. discriminate H.
Qed.

(** The witness of [stats_t_fills_cache_lines]: with a vector of three
    pointers the record takes 128 bytes. *)
Lemma stats_t_fills_cache_lines_witness :
  0 <= vector_size /\ 0 <= 3 /\ vector_align = 2 ^ 3 /\
  sizeof_stats_t = 128 /\
  sizeof_stats_t mod cache_line_size = 0.
Proof.
  split; [simpl; lia|]. split; [lia|]. split; [reflexivity|].
  split; [reflexivity|].
  apply (stats_t_fills_cache_lines 3); [simpl; lia | lia | reflexivity].
Defined.


End model_laws.

(** ** Keys rotated by 13 bits *)

Section rotation_examples.

Import key_generator benchmark.

#[local] Existing Instance gnu.random.
#[local] Existing Instance models.distributions.
#[local] Existing Instance models.rotated_keys.
#[local] Existing Instance models.key_set.
#[local] Existing Instance models.zero_values.

Lemma rotated_keys_rotation : RotationScramble 13.
Proof. constructor; [lia | |]; intros w _; reflexivity. Qed.



End rotation_examples.

(** * Part III: further properties of the code *)

(** ** Seeds and draws of the operation generator *)

Section operation_seeds.

Import operation_generator.

Context {L : StdRandom} {U : UniformRandomLib}.

Lemma next_keeps_seed g st : seed_ (snd (next g st)) = seed_ st.
Proof. unfold next. now destruct (next_uint32 (uni_dist st)). Qed.

Lemma step_seed w c :
  seed_ (statics (step w c))
  = match c with call_set_seed seed => seed | _ => seed_ (statics w) end.
Proof.
  destruct c as [r | seed | obj]; simpl; try reflexivity.
  destruct (objects w !! obj) as [[? g]|]; [apply next_keeps_seed | reflexivity].
Qed.

(** [get_seed()] returns the argument of the thread's most recent
    [set_seed], however many generators were constructed and however many
    operations were drawn since; before the first [set_seed] it returns
    the value the thread started with. *)
Theorem get_seed_is_last_set_seed (w : world) (cs : list call) :
  get_seed (statics (run w cs)) = last_seed (get_seed (statics w)) cs.
Proof.
  unfold get_seed, run, last_seed. revert w.
  induction cs as [|c cs IH]; intros w; [reflexivity|].
  cbn [fold_left]. rewrite IH, step_seed. reflexivity.
Qed.

Lemma next_at_mod g d : next_at g d = ops_ g !! Z.to_nat (d mod 256).
Proof. unfold next_at. now rewrite land_255_mod. Qed.

(** The low bytes of 256 consecutive draws are the 256 indices, each
    once. *)
Lemma window_indices (d : Z) :
  (fun x => Z.to_nat (x mod 256)) <$> seqZ d 256 ≡ₚ seq 0 256.
Proof.
  apply NoDup_Permutation.
  - apply NoDup_fmap_2_strong; [|apply NoDup_seqZ].
    intros x y Hx Hy E. apply elem_of_seqZ in Hx, Hy.
    pose proof (Z.mod_pos_bound x 256 eq_refl).
    pose proof (Z.mod_pos_bound y 256 eq_refl).
    assert (E' : x mod 256 = y mod 256) by lia.
    pose proof (Z.div_mod x 256 ltac:(lia)).
    pose proof (Z.div_mod y 256 ltac:(lia)). lia.
  - apply NoDup_seq.
  - intros b. rewrite list_elem_of_fmap, elem_of_seq. split.
    + intros (x & -> & _). pose proof (Z.mod_pos_bound x 256 eq_refl). lia.
    + intros Hb. exists (d + (Z.of_nat b - d) mod 256). split.
      * pose proof (Z.mod_pos_bound (Z.of_nat b - d) 256 eq_refl).
        rewrite Zplus_mod_idemp_r.
        replace (d + (Z.of_nat b - d)) with (Z.of_nat b) by lia.
        rewrite Z.mod_small by lia. lia.
      * apply elem_of_seqZ.
        pose proof (Z.mod_pos_bound (Z.of_nat b - d) 256 eq_refl). lia.
Qed.

Lemma window_by_indices g v (l : list Z) :
  length (filter (fun x => next_at g x = Some v) l)
  = length (filter (fun b => ops_ g !! b = Some v)
              ((fun x => Z.to_nat (x mod 256)) <$> l)).
Proof.
  induction l as [|x l IH]; [reflexivity|].
  cbn [fmap list_fmap]. rewrite !filter_cons, next_at_mod.
  destruct (decide (ops_ g !! Z.to_nat (x mod 256) = Some v)); simpl;
    now rewrite IH.
Qed.

Lemma count_indices_0 (v : Z) (l : list Z) :
  length (filter (fun b => l !! b = Some v) (seq 0 (length l)))
  = count_slots v l.
Proof.
  rewrite <- (count_indices v l 0). f_equal.
  apply filter_ext_in. intros b _. now rewrite Nat.sub_0_r.
Qed.

Lemma window_of_table g v d :
  (fun x => Z.to_nat (x mod 256)) <$> seqZ d 256 ≡ₚ seq 0 (length (ops_ g)) ->
  length (filter (fun x => next_at g x = Some v) (seqZ d 256))
  = count_slots v (ops_ g).
Proof.
  intros Hp. rewrite window_by_indices.
  rewrite (Permutation_length
             (filter_Permutation (fun b => ops_ g !! b = Some v) _ _ Hp)).
  apply count_indices_0.
Qed.

(** Over any 256 consecutive values of the draw, whatever the first one,
    [next()] selects an operation exactly as often as slots of the table
    hold it: only the low byte of a draw matters, and a window of 256
    draws visits every slot once. *)
Theorem window_selects_by_slots (r : ratios_t) (d : Z) (op : operation_t) :
  length (filter (fun x => next_at (operation_generator r) x
                           = Some (operation_code op)) (seqZ d 256))
  = count_slots (operation_code op) (ops_ (operation_generator r)).
Proof.
  apply window_of_table. rewrite ops_length. apply window_indices.
Qed.

End operation_seeds.

(** ** Workloads of a single operation *)

Section sole_ratio.

Import operation_generator.

Context `{L : StdRandom} (HL : StdRandomLaws L) {U : UniformRandomLib}.

Lemma count_slots_all v (l : list Z) :
  Forall (fun x => x = v) l -> count_slots v l = length l.
Proof.
  unfold count_slots. induction 1 as [|x l Hx _ IH]; [reflexivity|].
  rewrite filter_cons_True by exact Hx. simpl. now rewrite IH.
Qed.

Lemma sole_ratio_slot r op i :
  valid_ratios r ->
  (forall op', op' <> op -> (ratio_of r op' == 0)%Q) ->
  (i < 256)%nat ->
  ops_ (operation_generator r) !! i = Some (operation_code op).
Proof.
  intros Hr Hsole Hi.
  destruct (slot_is_code HL r i Hi) as [op' Hslot].
  pose proof (slot_has_weight HL r i op' Hr Hslot) as Hpos.
  destruct (Z.eq_dec (operation_code op') (operation_code op)) as [E|N].
  - apply operation_code_inj in E. now subst op'.
  - assert (Hne : op' <> op) by congruence.
    rewrite (Hsole op' Hne) in Hpos. now apply Qlt_irrefl in Hpos.
Qed.

(** When one operation has all the weight (the ratios are valid and
    those of the other four operations are zero, as with the default
    options, which only read), every slot of the table holds that
    operation and [next()] returns it at every call. *)
Theorem sole_ratio_always_drawn (r : ratios_t) (op : operation_t) :
  valid_ratios r ->
  (forall op', op' <> op -> (ratio_of r op' == 0)%Q) ->
  (forall i, (i < 256)%nat ->
     ops_ (operation_generator r) !! i = Some (operation_code op)) /\
  (table_frequency (operation_generator r) op == 1)%Q /\
  (forall st, fst (next (operation_generator r) st) = Some (operation_code op)).
Proof.
  intros Hr Hsole.
  pose proof (sole_ratio_slot r op) as Hslot.
  split; [intros i Hi; now apply Hslot|]. split.
  - unfold table_frequency. rewrite count_slots_all.
    + now rewrite ops_length.
    + apply Forall_lookup. intros i v Hv.
      assert (Hi : (i < 256)%nat).
      { rewrite <- (ops_length r). eapply lookup_lt_Some, Hv. }
      rewrite (Hslot i Hr Hsole Hi) in Hv. congruence.
  - intros st. unfold next. destruct (next_uint32 (uni_dist st)) as [d u].
    cbn [fst]. unfold next_at. apply Hslot; try assumption.
    pose proof (land_255_range d). lia.
Qed.

End sole_ratio.

(** ** Re-seeding and the width of keys *)

Section key_seeds.

Import key_generator.

Context {R : StdRandom} {D : IntDistributions} {K : KeyGeneratorImpl}.

Lemma thread_statics_set_seed tls t seed :
  thread_statics (set_seed t seed tls) t
  = set_seed_local seed (thread_statics tls t).
Proof. unfold thread_statics at 1, set_seed. now rewrite lookup_insert_eq. Qed.

Lemma thread_statics_set_seed_ne tls t t' seed :
  t <> t' -> thread_statics (set_seed t seed tls) t' = thread_statics tls t'.
Proof.
  intros Hne. unfold thread_statics, set_seed. now rewrite lookup_insert_ne.
Qed.

(** Of two [set_seed] calls of one thread only the later one counts: the
    thread's statics are as if the earlier call had not been made; in
    particular calling [set_seed] twice with one seed is the same as
    calling it once. *)
Theorem set_seed_last_call_counts (tls : gmap nat statics_t) (t : nat)
  (seed1 seed2 : Z) :
  set_seed t seed2 (set_seed t seed1 tls) = set_seed t seed2 tls /\
  set_seed t seed1 (set_seed t seed1 tls) = set_seed t seed1 tls.
Proof.
  assert (H : forall s1 s2,
            set_seed t s2 (set_seed t s1 tls) = set_seed t s2 tls).
  { intros s1 s2. unfold set_seed at 1. rewrite thread_statics_set_seed.
    unfold set_seed. now rewrite insert_insert_eq. }
  split; apply H.
Qed.

(** [set_seed] calls of two different threads do not interfere: in
    either order they leave the same statics. *)
Theorem set_seed_threads_commute (tls : gmap nat statics_t) (t1 t2 : nat)
  (seed1 seed2 : Z) :
  t1 <> t2 ->
  set_seed t1 seed1 (set_seed t2 seed2 tls)
  = set_seed t2 seed2 (set_seed t1 seed1 tls).
Proof.
  intros Hne.
  unfold set_seed at 1 3.
  rewrite !thread_statics_set_seed_ne by congruence.
  unfold set_seed. now apply insert_insert_ne.
Qed.

(** Past the range of [size_t] the sum in [size()] wraps around: when
    prefix length, key size and thread-id byte add up to [2^64] or more,
    [size()] is that sum less [2^64], a value below the configured key
    size. *)
Theorem size_wraps_around (kg : key_generator_t) :
  0 <= size_ kg < 2 ^ 64 ->
  Z.of_nat (length (prefix_ kg)) < 2 ^ 63 ->
  2 ^ 64 <= Z.of_nat (length (prefix_ kg)) + size_ kg
            + (if tid_prefix kg then 1 else 0) ->
  size kg = Z.of_nat (length (prefix_ kg)) + size_ kg
            + (if tid_prefix kg then 1 else 0) - 2 ^ 64 /\
  size kg < size_ kg.
Proof.
  intros Hs Hp Hsum. rewrite size_modulo.
  set (sum := Z.of_nat (length (prefix_ kg)) + size_ kg
              + (if tid_prefix kg then 1 else 0)) in *.
  assert (Hb : 0 <= sum - 2 ^ 64 < 2 ^ 64).
  { unfold sum. destruct (tid_prefix kg); lia. }
  assert (E : sum mod 2 ^ 64 = sum - 2 ^ 64).
  { symmetry. apply (Z.mod_unique_pos sum (2 ^ 64) 1); [exact Hb | ring]. }
  rewrite E. split; [reflexivity|].
  unfold sum. destruct (tid_prefix kg); lia.
Qed.

(** The keys [next] returns, laid out as prefix, thread id and identifier
    as the header describes, are [size()] bytes long: with the thread-id
    prefix enabled those of the call that takes a thread id, and with it
    disabled those of the call that takes none. *)
Theorem key_length_is_size (kg : key_generator_t) (tid : Z)
  (negative_access in_sequence : bool) (st : statics_t) :
  0 <= size_ kg ->
  Z.of_nat (length (prefix_ kg)) + size_ kg + 1 < 2 ^ 64 ->
  (tid_prefix kg = true ->
   Z.of_nat (length (fst (next_tid kg tid negative_access in_sequence st)))
   = size kg) /\
  (tid_prefix kg = false ->
   Z.of_nat (length (fst (next kg negative_access in_sequence st)))
   = size kg).
Proof.
  intros Hs Hb. rewrite size_modulo. unfold next_tid, next.
  destruct (choose_id kg negative_access in_sequence st) as [id st'].
  cbn [fst]. split; intros ->.
  - rewrite Z.mod_small by lia.
    rewrite length_app. cbn [length].
    rewrite Nat2Z.inj_add, Nat2Z.inj_succ, bits_shift_length by exact Hs. lia.
  - rewrite Z.mod_small by lia.
    rewrite length_app, Nat2Z.inj_add, bits_shift_length by exact Hs. lia.
Qed.

Lemma set_seed_local_twice seed1 seed2 (st : statics_t) :
  set_seed_local seed2 (set_seed_local seed1 st) = set_seed_local seed2 st.
Proof. reflexivity. Qed.

(** After any history of [set_seed] calls by any threads, a thread's
    statics are those it had before, re-seeded with the seed of its own
    last call; a thread that made no call has its statics unchanged. *)
Theorem set_seed_calls_per_thread (tls : gmap nat statics_t)
  (cs : list (nat * Z)) (t : nat) :
  thread_statics (set_seed_calls tls cs) t
  = match last_seed_by t cs with
    | Some seed => set_seed_local seed (thread_statics tls t)
    | None => thread_statics tls t
    end.
Proof.
  unfold set_seed_calls. revert tls.
  induction cs as [|[t0 s0] cs IH]; intros tls; [reflexivity|].
  cbn [fold_left last_seed_by fst snd]. rewrite IH.
  destruct (decide (t0 = t)) as [->|Hne].
  - rewrite thread_statics_set_seed.
    destruct (last_seed_by t cs); [apply set_seed_local_twice | reflexivity].
  - rewrite thread_statics_set_seed_ne by exact Hne.
    destruct (last_seed_by t cs); reflexivity.
Qed.

End key_seeds.

(** ** The counters of a statistics record *)

Section stats_counters.

Import benchmark.

Context {V : VectorLayout}.

Lemma stats_t_end_bound :
  0 <= vector_size -> 0 < vector_align -> 72 <= layout_end 0 stats_t_members.
Proof.
  intros Hs Ha. unfold stats_t_members; simpl.
  pose proof (round_up_ge 0 8 ltac:(lia)).
  pose proof (round_up_ge (round_up 0 8 + 8) 8 ltac:(lia)).
  pose proof (round_up_ge (round_up (round_up 0 8 + 8) 8 + 8) vector_align Ha).
  pose proof (round_up_ge
                (round_up (round_up (round_up 0 8 + 8) 8 + 8) vector_align
                 + vector_size) 8 ltac:(lia)).
  lia.
Qed.

(** The two counters of a record are its first 16 bytes, whatever the
    layout of the vector; the record takes two cache lines or more; and
    in an array that starts at an address aligned as the type requires,
    both counters of an element are on one cache line, the first of the
    element. *)
Theorem stats_t_counters_on_first_line (k : Z) :
  0 <= vector_size ->
  0 <= k ->
  vector_align = 2 ^ k ->
  firstn 2 (member_offsets 0 stats_t_members) = [0; 8] /\
  2 * cache_line_size <= sizeof_stats_t /\
  forall base i o,
    base mod alignof_stats_t = 0 ->
    0 <= o < 16 ->
    cache_line (element_address base i o)
    = cache_line (element_address base i 0).
Proof.
  intros Hs Hk Hva.
  destruct (stats_t_align_cases k Hk Hva) as (q & Hq & HA).
  assert (Hpos : 0 < vector_align).
  { rewrite Hva. apply Z.pow_pos_nonneg; lia. }
  pose proof (stats_t_end_bound Hs Hpos) as Hend.
  assert (HS : exists m, 2 <= m /\ sizeof_stats_t = cache_line_size * m).
  { unfold sizeof_stats_t, struct_size. fold alignof_stats_t. rewrite HA.
    unfold round_up, cache_line_size in *.
    set (E := layout_end 0 stats_t_members) in *.
    exists ((E + 64 * q - 1) / (64 * q) * q). split; [|ring].
    assert (H1 : 1 <= (E + 64 * q - 1) / (64 * q)).
    { apply Z.div_le_lower_bound; lia. }
    destruct (Z.eq_dec q 1) as [->|Hq1]; [|nia].
    assert (2 <= (E + 64 * 1 - 1) / (64 * 1)).
    { apply Z.div_le_lower_bound; lia. }
    lia. }
  destruct HS as (m & Hm & HSm).
  unfold cache_line_size in *.
  split; [reflexivity|]. split; [lia|].
  intros base i o Hbase Ho.
  unfold cache_line, element_address, cache_line_size.
  apply Z.mod_divide in Hbase; [|lia].
  destruct Hbase as [c Hc]. rewrite HA in Hc. rewrite HSm.
  replace (base + i * (64 * m) + o) with ((c * q + i * m) * 64 + o) by lia.
  replace (base + i * (64 * m) + 0) with ((c * q + i * m) * 64 + 0) by lia.
  rewrite !Z.div_add_l by lia.
  rewrite (Z.div_small o 64) by lia. reflexivity.
Qed.

End stats_counters.

(** ** Instances of the further properties *)

Section further_witnesses.

Import operation_generator key_generator benchmark.

#[local] Existing Instance gnu.random.
#[local] Existing Instance models.uniform_random.
#[local] Existing Instance models.distributions.
#[local] Existing Instance models.plain_keys.
#[local] Existing Instance models.vector_lp64.

Lemma read_only_ratios_valid : valid_ratios models.read_only_ratios.
Proof.
  split; [|reflexivity].
  repeat constructor; unfold Qle; simpl; lia.
Qed.

Lemma read_only_ratios_sole op :
  op <> READ -> (ratio_of models.read_only_ratios op == 0)%Q.
Proof. destruct op; intros H; try reflexivity. congruence. Qed.

(** The witness of [sole_ratio_always_drawn]: the default ratios. *)
Lemma sole_ratio_always_drawn_witness :
  StdRandomLaws gnu.random /\
  valid_ratios models.read_only_ratios /\
  (forall op, op <> READ -> (ratio_of models.read_only_ratios op == 0)%Q) /\
  (table_frequency (operation_generator models.read_only_ratios) READ == 1)%Q.
Proof.
  split; [exact gnu_random_laws|].
  split; [exact read_only_ratios_valid|].
  split; [exact read_only_ratios_sole|].
  apply (@sole_ratio_always_drawn gnu.random gnu_random_laws
           models.uniform_random models.read_only_ratios READ
           read_only_ratios_valid read_only_ratios_sole).
Defined.

(** The witness of [set_seed_threads_commute]: threads 0 and 1. *)
Lemma set_seed_threads_commute_witness :
  0%nat <> 1%nat /\
  set_seed 0 1729 (set_seed 1 42 (∅ : gmap nat key_generator.statics_t))
  = set_seed 1 42 (set_seed 0 1729 ∅).
Proof.
  split; [lia|].
  apply (set_seed_threads_commute ∅ 0%nat 1%nat 1729 42). lia.
Defined.

(** The witness of [size_wraps_around]: a key size of [2^64 - 1] with
    the thread-id byte gives a size of 0. *)
Lemma size_wraps_around_witness :
  0 <= size_ models.huge_keys < 2 ^ 64 /\
  Z.of_nat (length (prefix_ models.huge_keys)) < 2 ^ 63 /\
  2 ^ 64 <= Z.of_nat (length (prefix_ models.huge_keys))
            + size_ models.huge_keys
            + (if tid_prefix models.huge_keys then 1 else 0) /\
  key_generator.size models.huge_keys = 0.
Proof.
  split; [simpl; lia|]. split; [simpl; lia|]. split; [simpl; lia|].
  apply (size_wraps_around models.huge_keys); simpl; lia.
Defined.

(** The witness of [key_length_is_size]: 4 + 1 + 8 bytes. *)
Lemma key_length_is_size_witness :
  0 <= size_ models.user_keys /\
  Z.of_nat (length (prefix_ models.user_keys)) + size_ models.user_keys + 1
  < 2 ^ 64 /\
  (tid_prefix models.user_keys = true ->
   Z.of_nat (length (fst (next_tid models.user_keys 7 false true
                            models.advanced_statics)))
   = key_generator.size models.user_keys).
Proof.
  split; [simpl; lia|]. split; [simpl; lia|].
  apply (key_length_is_size models.user_keys 7 false true
           models.advanced_statics); simpl; lia.
Defined.

(** The witness of [stats_t_counters_on_first_line]. *)
Lemma stats_t_counters_on_first_line_witness :
  0 <= vector_size /\ 0 <= 3 /\ vector_align = 2 ^ 3 /\
  2 * cache_line_size <= sizeof_stats_t.
Proof.
  split; [simpl; lia|]. split; [lia|]. split; [reflexivity|].
  apply (stats_t_counters_on_first_line 3); [simpl; lia | lia | reflexivity].
Defined.

End further_witnesses.
